(** * tma.js SDK: WebApp component, navigator initialisation and the
      mini-apps event emitter singleton

    A shallow embedding of
    - the [WebApp] class (bridge calls, link and invoice opening, data
      sending, colour mutators, version test),
    - [initNavigator] and its helper [instantiate],
    - the [miniAppsEventEmitter] singleton with its rewired [off],
    - the factory of [initMiniApp],
    and the properties the specification states about them, followed by
    further properties of the same code.

    JavaScript strings are kept as byte strings in their UTF-8 encoding, the
    form the bridge serialises and [Blob] measures.  Effects (bridge calls,
    browser navigation, state writes, emitted events) are recorded in a trace
    in the order the program performs them. *)

From Stdlib Require Import ZArith Ascii String List Bool Lia.
From stdpp Require Import gmap strings list fin_maps.

Open Scope string_scope.
Open Scope list_scope.

(** ** JavaScript values and exceptions *)

#[warnings="-register-all"]
Inductive jsval : Type :=
| JUndefined
| JNull
| JBool (b : bool)
| JNum (n : Z)
| JStr (s : string)
| JArr (items : list jsval)
| JObj (fields : list (string * jsval)).

(** An object literal, as an ordered list of fields. *)
Definition jsobj : Type := list (string * jsval).

Fixpoint field (k : string) (o : jsobj) : jsval :=
  match o with
  | [] => JUndefined
  | (k', v) :: o' => if String.eqb k k' then v else field k o'
  end.

(** [v.k] for a value that is neither [null] nor [undefined]; only objects
    carry the properties read in this program. *)
Definition prop (v : jsval) (k : string) : jsval :=
  match v with
  | JObj o => field k o
  | _ => JUndefined
  end.

(** [s === v] for a string [s]. *)
Definition str_strict_eq (s : string) (v : jsval) : bool :=
  match v with
  | JStr t => String.eqb s t
  | _ => false
  end.

Record exn : Type := Exn { exn_name : string; exn_message : string }.

(** [new Error(message)] *)
Definition Error (message : string) : exn := Exn "Error" message.

Inductive Result (A : Type) : Type :=
| Ok (a : A)
| Throw (e : exn).
Arguments Ok {A} a.
Arguments Throw {A} e.

(** Effectful code: a computation reads and changes a world and returns a
    value or throws. *)
Definition Eff (W A : Type) : Type := W -> Result A * W.

#[export] Instance Eff_ret (W : Type) : MRet (Eff W) := fun A a w => (Ok a, w).
#[export] Instance Eff_bind (W : Type) : MBind (Eff W) := fun A B f m w =>
  match m w with
  | (Ok a, w') => f a w'
  | (Throw e, w') => (Throw e, w')
  end.

Definition throw {W A : Type} (e : exn) : Eff W A := fun w => (Throw e, w).

(** The outcome of a pure call that may throw. *)
Definition lift {W A : Type} (r : Result A) : Eff W A := fun w => (r, w).

(** [try { body } catch (e) { handler }]: what the body did before it threw
    stays done. *)
Definition try_catch {W A : Type} (body : Eff W A) (handler : exn -> Eff W A)
    : Eff W A := fun w =>
  match body w with
  | (Ok a, w') => (Ok a, w')
  | (Throw e, w') => handler e w'
  end.

(** The double quote character, for the messages that contain one. *)
Definition dq : string := String (ascii_of_nat 34) EmptyString.

(** ** Versions *)

(** A version is the tuple of the numbers of its dotted string: 6.10 is
    [[6; 10]]. *)
Definition Version : Type := list nat.

(** Whether some component is above zero. *)
Definition positive_tail (v : Version) : bool :=
  existsb (fun x => (0 <? x)%nat) v.

(** Modelled from the spec: [compareVersions] of the utils package is not
    among the sources.  Section 3: comparison is lexicographic over the tuple,
    missing trailing components treated as zero.  The result is 1, 0 or -1. *)

Fixpoint compareVersions (a b : Version) : Z :=
  match a, b with
  | [], _ => if positive_tail b then -1 else 0
  | _ :: _, [] => if positive_tail a then 1 else 0
  | x :: a', y :: b' =>
      if (x =? y)%nat then compareVersions a' b'
      else if (y <? x)%nat then 1 else -1
  end%Z.

(** The order on versions, stated on components: [a] is below [b] when, at the
    first position where they differ (absent components read as 0), [a] has
    the smaller number. *)
Definition component (v : Version) (i : nat) : nat := nth i v 0.

Definition version_lt (a b : Version) : Prop :=
  exists i, (forall j, j < i -> component a j = component b j)
            /\ component a i < component b i.

Definition version_le (a b : Version) : Prop :=
  version_lt a b \/ forall i, component a i = component b i.

(** ** The WebApp component *)

Module WebApp.

Record URL : Type := { hostname : string; pathname : string; search : string }.

(** What the class imports and does not define.  [formatURL] (url.js),
    [supports] (bridge package) and [isRGB] (colors package) are not among the
    sources; [URL_new] is the platform's [new URL(..)], which throws on a
    string that is no URL. *)
Class Imports : Type := {
  formatURL : string -> Result string;
  URL_new : string -> Result URL;
  supports : string -> Version -> bool;
  isRGB : string -> bool;
}.

Record WebAppState : Type := {
  backgroundColor : string;
  headerColor : string;
}.

Inductive StateKey : Type := KBackgroundColor | KHeaderColor.

Inductive Effect : Type :=
| PostEvent (method : string) (params : option jsobj)
| WindowOpen (url target : string)
| LocationHref (url : string)
| StateUpdate (key : StateKey) (value : string)
| Emit (key : StateKey) (value : string).

(** A listener that [request] holds on the stream of incoming bridge events. *)
Record Listener : Type := {
  l_request : nat;
  l_event : string;
  l_capture : jsobj -> bool;
}.

Record World : Type := {
  w_state : WebAppState;
  w_trace : list Effect;
  w_listeners : list Listener;
  w_settled : gmap nat jsval;
  w_next : nat;
}.

(** The constructor's own fields. *)
Record WebApp : Type := {
  currentVersion : Version;
  currentPlatform : string;
}.

Definition M : Type -> Type := Eff World.

Definition effect (e : Effect) : M unit := fun w =>
  (Ok tt, {| w_state := w_state w; w_trace := w_trace w ++ [e];
             w_listeners := w_listeners w; w_settled := w_settled w;
             w_next := w_next w |}).

(** [this.postEvent]: the injected bridge function; a call is recorded. *)
Definition postEvent (method : string) (params : option jsobj) : M unit :=
  effect (PostEvent method params).

Definition set_field (k : StateKey) (v : string) (s : WebAppState) : WebAppState :=
  match k with
  | KBackgroundColor => {| backgroundColor := v; headerColor := headerColor s |}
  | KHeaderColor => {| backgroundColor := backgroundColor s; headerColor := v |}
  end.

(** Modelled from the spec: the [State] class (state/index.js) is not among
    the sources.  Section 3: mutation goes through a single state-update entry
    point that applies the new value and emits a change event carrying the
    field name and new value. *)
Definition State_set (k : StateKey) (v : string) : M unit := fun w =>
  (Ok tt, {| w_state := set_field k v (w_state w);
             w_trace := w_trace w ++ [StateUpdate k v; Emit k v];
             w_listeners := w_listeners w; w_settled := w_settled w;
             w_next := w_next w |}).

(** *** Promises *)

(** The promise an [async] method returns: rejected before any suspension, or
    waiting on request [r] and continuing with [k] on its payload. *)
Inductive Promise : Type :=
| PRejected (e : exn)
| PThen (r : nat) (k : jsval -> jsval).

Inductive Settlement : Type :=
| Pending
| Fulfilled (v : jsval)
| Failed (e : exn).

Definition poll (w : World) (p : Promise) : Settlement :=
  match p with
  | PRejected e => Failed e
  | PThen r k =>
      match w_settled w !! r with
      | Some payload => Fulfilled (k payload)
      | None => Pending
      end
  end.

(** The [async] keyword: an exception of the body rejects the promise. *)
Definition async (body : M Promise) : M Promise := fun w =>
  match body w with
  | (Ok p, w') => (Ok p, w')
  | (Throw e, w') => (Ok (PRejected e), w')
  end.

(** Modelled from the spec: [request] of the bridge package is not among
    the sources.  Section 4.1: subscribe to the expected response event, emit
    the event via the post-event bridge; upon receiving any event of that name
    invoke the capture predicate: if true, unsubscribe and settle with the
    payload, if false keep waiting.  No timeout is passed by the callers
    modelled here. *)
Definition request (method : string) (params : jsobj) (event : string)
    (capture : jsobj -> bool) : M nat := fun w =>
  let r := w_next w in
  (Ok r, {| w_state := w_state w;
            w_trace := w_trace w ++ [PostEvent method (Some params)];
            w_listeners := w_listeners w
              ++ [{| l_request := r; l_event := event; l_capture := capture |}];
            w_settled := w_settled w;
            w_next := S r |}).

Definition claims (event : string) (payload : jsobj) (l : Listener) : bool :=
  String.eqb (l_event l) event && l_capture l payload.

Definition settle_all (payload : jsobj) (hit : list Listener)
    (m : gmap nat jsval) : gmap nat jsval :=
  foldr (fun l acc => <[l_request l := JObj payload]> acc) m hit.

(** Modelled from the spec: the host delivers a named event with its payload;
    every listener that claims it is unsubscribed and its request settled, the
    others keep waiting (section 4.1). *)
Definition deliver (event : string) (payload : jsobj) (w : World) : World :=
  {| w_state := w_state w;
     w_trace := w_trace w;
     w_listeners :=
       List.filter (fun l => negb (claims event payload l)) (w_listeners w);
     w_settled :=
       settle_all payload
         (List.filter (claims event payload) (w_listeners w)) (w_settled w);
     w_next := w_next w |}.

(** *** The regular expression of [openInvoice] *)

Definition in_range (lo hi c : ascii) : bool :=
  (nat_of_ascii lo <=? nat_of_ascii c)%nat && (nat_of_ascii c <=? nat_of_ascii hi)%nat.

(** [[A-Za-z0-9\-_=]] *)
Definition is_slug_char (c : ascii) : bool :=
  in_range "A" "Z" c || in_range "a" "z" c || in_range "0" "9" c
  || Ascii.eqb c "-" || Ascii.eqb c "_" || Ascii.eqb c "=".

Fixpoint all_chars (p : ascii -> bool) (s : string) : bool :=
  match s with
  | EmptyString => true
  | String c s' => p c && all_chars p s'
  end.

Fixpoint strip_prefix (p s : string) : option string :=
  match p with
  | EmptyString => Some s
  | String c p' =>
      match s with
      | String d s' => if Ascii.eqb c d then strip_prefix p' s' else None
      | EmptyString => None
      end
  end.

(** [[A-Za-z0-9\-_=]+$]: one character or more, up to the end. *)
Definition slug_ok (s : string) : bool :=
  match s with
  | EmptyString => false
  | _ => all_chars is_slug_char s
  end.

(** [pathname.match(/^\/(\$|invoice\/)([A-Za-z0-9\-_=]+)$/)]: the two groups,
    or [None] for [null].  The alternatives are tried in order; they start
    with different characters, so at most one of them applies. *)
Definition match_invoice (pathname : string) : option (string * string) :=
  match strip_prefix "/" pathname with
  | None => None
  | Some rest =>
      match strip_prefix "$" rest with
      | Some slug => if slug_ok slug then Some ("$", slug) else None
      | None =>
          match strip_prefix "invoice/" rest with
          | Some slug => if slug_ok slug then Some ("invoice/", slug) else None
          | None => None
          end
      end
  end.

Section Methods.
Context `{Imports}.
Variable this : WebApp.

Definition version : Version := currentVersion this.

Definition platform : string := currentPlatform this.

(** Modelled from the spec: [createSupportsFunc] (supports.js) is not among
    the sources.  Section 4.2: look up the capability's required bridge event
    and compare the current version; a name outside the table has no event to
    check. *)
Definition createSupportsFunc (v : Version) (table : list (string * string))
    (name : string) : bool :=
  match List.find (fun e => String.eqb (fst e) name) table with
  | Some (_, event) => supports event v
  | None => false
  end.

Definition supports_table : list (string * string) :=
  [ ("openInvoice", "web_app_open_invoice");
    ("readTextFromClipboard", "web_app_read_text_from_clipboard");
    ("setHeaderColor", "web_app_set_header_color");
    ("setBackgroundColor", "web_app_set_background_color");
    ("requestPhoneAccess", "web_app_request_phone");
    ("requestWriteAccess", "web_app_request_write_access") ].

(** [this.supports] *)
Definition this_supports : string -> bool :=
  createSupportsFunc (currentVersion this) supports_table.

Definition close : M unit := postEvent "web_app_close" None.

Definition ready : M unit := postEvent "web_app_ready" None.

Definition isVersionAtLeast (v : Version) : bool :=
  (0 <=? compareVersions v version)%Z.

Definition openLink (url : string) (tryInstantView : option bool) : M unit :=
  formattedUrl ← lift (formatURL url);
  if negb (supports "web_app_open_link" version) then
    effect (WindowOpen formattedUrl "_blank")
  else
    postEvent "web_app_open_link"
      (Some (("url", JStr formattedUrl)
             :: match tryInstantView with
                | Some b => [("try_instant_view", JBool b)]
                | None => []
                end)).

Definition openTelegramLink (url : string) : M unit :=
  formatted ← lift (formatURL url);
  u ← lift (URL_new formatted);
  if negb (String.eqb (hostname u) "t.me") then
    throw (Error ("URL has not allowed hostname: " +:+ hostname u
                  +:+ ". Only " +:+ dq +:+ "t.me" +:+ dq +:+ " is allowed"))
  else if negb (supports "web_app_open_tg_link" version) then
    effect (LocationHref url)
  else
    postEvent "web_app_open_tg_link"
      (Some [("path_full", JStr (pathname u +:+ search u))]).

(** [({ slug: eventSlug }) => slug === eventSlug] *)
Definition capture_slug (slug : string) (payload : jsobj) : bool :=
  str_strict_eq slug (field "slug" payload).

Definition openInvoice (url : string) : M Promise :=
  async (
    formatted ← lift (formatURL url);
    u ← lift (URL_new formatted);
    if negb (String.eqb (hostname u) "t.me") then
      throw (Error ("Incorrect hostname: " +:+ hostname u))
    else
      match match_invoice (pathname u) with
      | None =>
          throw (Error ("Link pathname has incorrect format. Expected to receive "
                        +:+ dq +:+ "/invoice/slug" +:+ dq +:+ " or "
                        +:+ dq +:+ "/$slug" +:+ dq))
      | Some (_, slug) =>
          r ← request "web_app_open_invoice" [("slug", JStr slug)]
                "invoice_closed" (capture_slug slug);
          mret (PThen r (fun result => prop result "status"))
      end).

(** [new Blob([data]).size]: the number of bytes of the UTF-8 encoding. *)
Definition blob_size (data : string) : nat := String.length data.

(** The decimal digits of a number, for [${size}]. *)
Fixpoint digits (fuel n : nat) (acc : string) : string :=
  match fuel with
  | O => acc
  | S fuel' =>
      let acc' := String (ascii_of_nat (48 + n mod 10)) acc in
      if (n <? 10)%nat then acc' else digits fuel' (n / 10) acc'
  end.

Definition show_nat (n : nat) : string := digits (S n) n EmptyString.

Definition sendData (data : string) : M unit :=
  let size := blob_size data in
  if (size =? 0)%nat || (4096 <? size)%nat then
    throw (Error ("Passed data has incorrect size: " +:+ show_nat size))
  else
    postEvent "web_app_data_send" (Some [("data", JStr data)]).

Definition setHeaderColor (color : string) : M unit :=
  _ ← postEvent "web_app_set_header_color"
        (Some (if isRGB color then [("color", JStr color)]
               else [("color_key", JStr color)]));
  State_set KHeaderColor color.

Definition setBackgroundColor (color : string) : M unit :=
  _ ← postEvent "web_app_set_background_color" (Some [("color", JStr color)]);
  State_set KBackgroundColor color.

End Methods.

(** *** Vocabulary of the properties *)

(** The world after some effects were appended to the trace and nothing else
    changed. *)
Definition traced (w : World) (es : list Effect) (w' : World) : Prop :=
  w_trace w' = w_trace w ++ es
  /\ w_state w' = w_state w
  /\ w_listeners w' = w_listeners w
  /\ w_settled w' = w_settled w
  /\ w_next w' = w_next w.

(** Request identifiers are handed out in increasing order: whatever is
    registered or settled lies below the next one. *)
Definition fresh (w : World) : Prop :=
  (forall l, In l (w_listeners w) -> l_request l < w_next w)
  /\ (forall r v, w_settled w !! r = Some v -> r < w_next w).

Definition bad_hostname_telegram (host : string) : exn :=
  Error ("URL has not allowed hostname: " +:+ host
         +:+ ". Only " +:+ dq +:+ "t.me" +:+ dq +:+ " is allowed").

Definition bad_hostname_invoice (host : string) : exn :=
  Error ("Incorrect hostname: " +:+ host).

Definition bad_pathname : exn :=
  Error ("Link pathname has incorrect format. Expected to receive "
         +:+ dq +:+ "/invoice/slug" +:+ dq +:+ " or " +:+ dq +:+ "/$slug" +:+ dq).

(** The payload of [web_app_open_link]. *)
Definition open_link_params (f : string) (tryInstantView : option bool) : jsobj :=
  ("url", JStr f)
  :: match tryInstantView with
     | Some b => [("try_instant_view", JBool b)]
     | None => []
     end.

Section Vocabulary.
Context `{Imports}.

(** The bridge call of [setHeaderColor]. *)
Definition header_color_call (color : string) : Effect :=
  PostEvent "web_app_set_header_color"
    (Some (if isRGB color then [("color", JStr color)]
           else [("color_key", JStr color)])).

Definition background_color_call (color : string) : Effect :=
  PostEvent "web_app_set_background_color" (Some [("color", JStr color)]).

(** What happens around a pending call: the host delivers an event, or
    [openInvoice] is called again. *)
Inductive Action : Type :=
| Incoming (event : string) (payload : jsobj)
| Call (url : string).

Definition step (w : World) (a : Action) : World :=
  match a with
  | Incoming event payload => deliver event payload w
  | Call url => snd (openInvoice url w)
  end.

Definition run_actions (acts : list Action) (w : World) : World :=
  fold_left step acts w.

(** The status carried by an action when it is an [invoice_closed] event whose
    slug field is the given slug. *)
Definition closes (slug : string) (a : Action) : option jsval :=
  match a with
  | Incoming event payload =>
      if String.eqb event "invoice_closed"
         && str_strict_eq slug (field "slug" payload)
      then Some (field "status" payload) else None
  | Call _ => None
  end.

Fixpoint first_close (slug : string) (acts : list Action) : option jsval :=
  match acts with
  | [] => None
  | a :: rest =>
      match closes slug a with
      | Some status => Some status
      | None => first_close slug rest
      end
  end.

(** Request [r] is waiting for the invoice [slug]. *)
Definition waits (w : World) (r : nat) (slug : string) : Prop :=
  fresh w
  /\ r < w_next w
  /\ w_settled w !! r = None
  /\ (exists l, In l (w_listeners w) /\ l_request l = r)
  /\ (forall l, In l (w_listeners w) -> l_request l = r ->
        l_event l = "invoice_closed"
        /\ forall payload, l_capture l payload = capture_slug slug payload).

(** Request [r] is settled with [v] and no listener is left for it. *)
Definition settled_with (w : World) (r : nat) (v : jsval) : Prop :=
  fresh w
  /\ r < w_next w
  /\ w_settled w !! r = Some v
  /\ (forall l, In l (w_listeners w) -> l_request l <> r).

End Vocabulary.

(** *** The other methods of the class *)

(** Modelled from the spec: the capture that [request] applies when its caller
    passes none (section 4.1: default, match by request id if present): with a
    string [req_id] among the parameters the payload must carry the same
    [req_id]; without one every event of the name is claimed. *)
Definition default_capture (params : option jsobj) (payload : jsobj) : bool :=
  match params with
  | Some ps =>
      match field "req_id" ps with
      | JStr id => str_strict_eq id (field "req_id" payload)
      | _ => true
      end
  | None => true
  end.

(** Modelled from the spec: [request] with or without parameters (the bridge
    package is not among the sources); with parameters it is [request]. *)
Definition request_opt (method : string) (params : option jsobj)
    (event : string) (capture : jsobj -> bool) : M nat := fun w =>
  let r := w_next w in
  (Ok r, {| w_state := w_state w;
            w_trace := w_trace w ++ [PostEvent method params];
            w_listeners := w_listeners w
              ++ [{| l_request := r; l_event := event; l_capture := capture |}];
            w_settled := w_settled w;
            w_next := S r |}).

(** [const { data = null } = result; return data] *)
Definition data_or_null (result : jsval) : jsval :=
  match prop result "data" with
  | JUndefined => JNull
  | data => data
  end.

(** [readTextFromClipboard]; [req_id] is what [this.createRequestId()]
    returns at this call. *)
Definition readTextFromClipboard (req_id : string) : M Promise :=
  async (
    r ← request_opt "web_app_read_text_from_clipboard"
          (Some [("req_id", JStr req_id)]) "clipboard_text_received"
          (default_capture (Some [("req_id", JStr req_id)]));
    mret (PThen r data_or_null)).

Definition requestPhoneAccess : M Promise :=
  async (
    r ← request_opt "web_app_request_phone" None "phone_requested"
          (default_capture None);
    mret (PThen r (fun result => prop result "status"))).

Definition requestWriteAccess : M Promise :=
  async (
    r ← request_opt "web_app_request_write_access" None "write_access_requested"
          (default_capture None);
    mret (PThen r (fun result => prop result "status"))).

Section Getters.
(** [isColorDark] of the colors package. *)
Variable isColorDark : string -> bool.

(** Modelled from the spec: [State.get] reads the local state only (section
    4.4: getters read only local state). *)
Definition get_backgroundColor : M string := fun w =>
  (Ok (backgroundColor (w_state w)), w).

Definition get_headerColor : M string := fun w =>
  (Ok (headerColor (w_state w)), w).

Definition colorScheme : M string :=
  background ← get_backgroundColor;
  mret (if isColorDark background then "dark" else "light").

End Getters.

(** *** Vocabulary of the further properties *)

(** A run of events delivered by the host. *)
Definition deliveries (events : list (string * jsobj)) (w : World) : World :=
  fold_left (fun w e => deliver (fst e) (snd e) w) events w.

(** The payload of the first event of a name that a capture claims. *)
Fixpoint first_claimed (event : string) (capture : jsobj -> bool)
    (events : list (string * jsobj)) : option jsobj :=
  match events with
  | [] => None
  | (name, payload) :: rest =>
      if String.eqb name event && capture payload then Some payload
      else first_claimed event capture rest
  end.

(** Request [r] is waiting for an event of a name under a capture. *)
Definition awaiting (w : World) (r : nat) (event : string)
    (capture : jsobj -> bool) : Prop :=
  fresh w
  /\ r < w_next w
  /\ w_settled w !! r = None
  /\ (exists l, In l (w_listeners w) /\ l_request l = r)
  /\ (forall l, In l (w_listeners w) -> l_request l = r ->
        l_event l = event /\ forall payload, l_capture l payload = capture payload).

Section MoreVocabulary.
Context `{Imports}.

(** A call of one of the two colour mutators. *)
Inductive Mutation : Type :=
| SetHeader (color : string)
| SetBackground (color : string).

Definition mutate (m : Mutation) : M unit :=
  match m with
  | SetHeader color => setHeaderColor color
  | SetBackground color => setBackgroundColor color
  end.

Fixpoint mutations (ms : list Mutation) : M unit :=
  match ms with
  | [] => mret tt
  | m :: rest => _ ← mutate m; mutations rest
  end.

(** The three effects of a mutator call. *)
Definition effects_of (m : Mutation) : list Effect :=
  match m with
  | SetHeader color =>
      [header_color_call color; StateUpdate KHeaderColor color;
       Emit KHeaderColor color]
  | SetBackground color =>
      [background_color_call color; StateUpdate KBackgroundColor color;
       Emit KBackgroundColor color]
  end.

Definition apply_mutation (s : WebAppState) (m : Mutation) : WebAppState :=
  match m with
  | SetHeader color => set_field KHeaderColor color s
  | SetBackground color => set_field KBackgroundColor color s
  end.

(** The colour last given to a field, or the one it had. *)
Definition last_header (ms : list Mutation) (initial : string) : string :=
  fold_left (fun c m => match m with SetHeader color => color | _ => c end)
    ms initial.

Definition last_background (ms : list Mutation) (initial : string) : string :=
  fold_left (fun c m => match m with SetBackground color => color | _ => c end)
    ms initial.

End MoreVocabulary.

Section Acceptance.
Context `{Imports}.

(** [openInvoice] accepts the URL and reads the slug off it. *)
Definition accepts (url slug : string) : Prop :=
  exists f u g,
    formatURL url = Ok f
    /\ URL_new f = Ok u
    /\ hostname u = "t.me"
    /\ (g = "$" \/ g = "invoice/")
    /\ pathname u = "/" +:+ g +:+ slug
    /\ slug_ok slug = true.

(** [openTelegramLink] accepts the URL and parses it to [u]. *)
Definition telegram_link (url : string) (u : URL) : Prop :=
  exists f, formatURL url = Ok f /\ URL_new f = Ok u /\ hostname u = "t.me".

End Acceptance.

End WebApp.

(** ** Navigator initialisation *)

Module Navigation.

(** A listener on a navigator: the closure [saveState] of [initNavigator],
    with the two variables it captures. *)
Inductive Handler : Type :=
| SaveState (sessionStorageKey : string) (navigator : nat).

(** A navigator object.  Objects live in a heap and are named by reference, so
    that the closure and the caller see the same navigator. *)
Record Navigator : Type := {
  nav_history : jsval;
  nav_index : jsval;
  nav_options : jsval;
  nav_listeners : list (string * Handler);
}.

Record World : Type := {
  sessionStorage : gmap string string;
  writes : list (string * string);
  heap : gmap nat Navigator;
  next_ref : nat;
  page_reload : bool;
  location : string;
  console : list (string * exn);
}.

(** What the module imports and does not define.  [JSON_parse] and
    [JSON_stringify] are the platform's; [nav_rejects] is what the constructor
    of [BrowserNavigator] throws on a history, an index and options, if
    anything; [entry_of_location] is the entry that
    [createBrowserNavigatorFromLocation] derives from the location. *)
Class Imports : Type := {
  JSON_parse : string -> Result jsval;
  JSON_stringify : jsval -> string;
  nav_rejects : jsval -> jsval -> jsval -> option exn;
  entry_of_location : string -> jsval -> jsval;
}.

Definition M : Type -> Type := Eff World.

(** [isPageReload()] (isPageReload.js, not among the sources) reads how the page was
    entered; the world holds the answer. *)
Definition isPageReload : M bool := fun w => (Ok (page_reload w), w).

(** [sessionStorage.getItem(key)]: [None] for [null]. *)
Definition getItem (key : string) : M (option string) := fun w =>
  (Ok (sessionStorage w !! key), w).

(** [sessionStorage.setItem(key, value)] *)
Definition setItem (key value : string) : M unit := fun w =>
  (Ok tt, {| sessionStorage := <[key := value]> (sessionStorage w);
             writes := writes w ++ [(key, value)];
             heap := heap w; next_ref := next_ref w;
             page_reload := page_reload w; location := location w;
             console := console w |}).

(** [console.error(message, e)] *)
Definition console_error (message : string) (e : exn) : M unit := fun w =>
  (Ok tt, {| sessionStorage := sessionStorage w; writes := writes w;
             heap := heap w; next_ref := next_ref w;
             page_reload := page_reload w; location := location w;
             console := console w ++ [(message, e)] |}).

Definition get_location : M string := fun w => (Ok (location w), w).

Definition alloc (n : Navigator) : M nat := fun w =>
  (Ok (next_ref w),
   {| sessionStorage := sessionStorage w; writes := writes w;
      heap := <[next_ref w := n]> (heap w); next_ref := S (next_ref w);
      page_reload := page_reload w; location := location w;
      console := console w |}).

Definition update (r : nat) (f : Navigator -> Navigator) : M unit := fun w =>
  (Ok tt,
   {| sessionStorage := sessionStorage w; writes := writes w;
      heap := alter f r (heap w); next_ref := next_ref w;
      page_reload := page_reload w; location := location w;
      console := console w |}).

(** A string is truthy when it is not empty. *)
Definition truthy (s : string) : bool :=
  match s with
  | EmptyString => false
  | _ => true
  end.

(** [const { index, history } = v]: a [TypeError] on [null] and [undefined]. *)
Definition destructure (v : jsval) : Result (jsval * jsval) :=
  match v with
  | JNull | JUndefined =>
      Throw (Exn "TypeError" "Cannot destructure property 'index'")
  | _ => Ok (prop v "index", prop v "history")
  end.

Section Functions.
Context `{Imports}.

(** Modelled from the spec: the [BrowserNavigator] class is not among the
    sources.
    Sections 3 and 4.5: the navigator owns the entries and the current index,
    and a restored snapshot is reinstated verbatim.  What the constructor
    refuses is left to [nav_rejects]. *)
Definition BrowserNavigator_new (history index options : jsval) : M nat :=
  match nav_rejects history index options with
  | Some e => throw e
  | None =>
      alloc {| nav_history := history; nav_index := index;
               nav_options := options; nav_listeners := [] |}
  end.

(** Modelled from the spec: [createBrowserNavigatorFromLocation] is not among
    the sources.  Section 4.5: a single-entry history derived from the current
    location. *)
Definition createBrowserNavigatorFromLocation (options : jsval) : M nat :=
  loc ← get_location;
  alloc {| nav_history := JArr [entry_of_location loc options];
           nav_index := JNum 0;
           nav_options := options; nav_listeners := [] |}.

(** Modelled from the spec: the navigator's [on], from the event emitter
    contract of section 4.3; listeners are kept in registration order. *)
Definition on (navigator : nat) (event : string) (h : Handler) : M unit :=
  update navigator (fun n =>
    {| nav_history := nav_history n; nav_index := nav_index n;
       nav_options := nav_options n;
       nav_listeners := nav_listeners n ++ [(event, h)] |}).

Definition instantiate (sessionStorageKey : string) (options : jsval) : M nat :=
  reload ← isPageReload;
  restored ←
    (if reload : bool then
       stateRaw ← getItem sessionStorageKey;
       match stateRaw with
       | Some raw =>
           if truthy raw then
             try_catch
               (parsed ← lift (JSON_parse raw);
                fields ← lift (destructure parsed);
                let '(index, history) := fields in
                navigator ← BrowserNavigator_new history index options;
                mret (Some navigator))
               (fun e =>
                  _ ← console_error "Unable to restore hash navigator state." e;
                  mret None)
           else mret None
       | None => mret None
       end
     else mret None : M (option nat));
  match restored with
  | Some navigator => mret navigator
  | None => createBrowserNavigatorFromLocation options
  end.

(** [{ index: navigator.index, history: navigator.history }] *)
Definition snapshot (n : Navigator) : jsval :=
  JObj [("index", nav_index n); ("history", nav_history n)].

(** The body of the closure [saveState]. *)
Definition saveState (sessionStorageKey : string) (navigator : nat) : M unit :=
  fun w =>
    match heap w !! navigator with
    | Some n => setItem sessionStorageKey (JSON_stringify (snapshot n)) w
    | None => (Throw (Exn "ReferenceError" "navigator"), w)
    end.

Definition initNavigator (sessionStorageKey : string) (options : jsval) : M nat :=
  navigator ← instantiate sessionStorageKey options;
  _ ← on navigator "change" (SaveState sessionStorageKey navigator);
  _ ← saveState sessionStorageKey navigator;
  mret navigator.

Definition call (h : Handler) : M unit :=
  match h with
  | SaveState key navigator => saveState key navigator
  end.

Fixpoint call_all (hs : list Handler) : M unit :=
  match hs with
  | [] => mret tt
  | h :: rest => _ ← call h; call_all rest
  end.

(** Modelled from the spec: the navigator's [emit], from section 4.3: the
    listeners of the event are called in registration order. *)
Definition emit (navigator : nat) (event : string) : M unit := fun w =>
  match heap w !! navigator with
  | Some n =>
      call_all
        (List.map snd
           (List.filter (fun l => String.eqb (fst l) event) (nav_listeners n))) w
  | None => (Ok tt, w)
  end.

(** Modelled from the spec: a navigation (push, replace, back, forward of
    section 4.5) that moves the navigator to a history and an index and emits
    a change event. *)
Definition navigate (navigator : nat) (history index : jsval) : M unit :=
  _ ← update navigator (fun n =>
        {| nav_history := history; nav_index := index;
           nav_options := nav_options n; nav_listeners := nav_listeners n |});
  emit navigator "change".

(** A run of navigations, each given by the state it leads to. *)
Fixpoint navigations (navigator : nat) (steps : list (jsval * jsval)) : M unit :=
  match steps with
  | [] => mret tt
  | (history, index) :: rest =>
      _ ← navigate navigator history index; navigations navigator rest
  end.

End Functions.

(** *** Vocabulary of the properties *)

Section Vocabulary.
Context `{Imports}.

(** The world after a navigator was allocated. *)
Definition allocated (n : Navigator) (w : World) : World := snd (alloc n w).

Definition restored (history index options : jsval) : Navigator :=
  {| nav_history := history; nav_index := index;
     nav_options := options; nav_listeners := [] |}.

Definition derived (w : World) (options : jsval) : Navigator :=
  {| nav_history := JArr [entry_of_location (location w) options];
     nav_index := JNum 0;
     nav_options := options; nav_listeners := [] |}.

(** What [initNavigator] adds once [instantiate] has returned a navigator. *)
Definition listening (key : string) (nav : nat) (n : Navigator) : Navigator :=
  {| nav_history := nav_history n; nav_index := nav_index n;
     nav_options := nav_options n;
     nav_listeners := nav_listeners n ++ [("change", SaveState key nav)] |}.

(** The navigator [nav] has exactly one listener of [change], the closure that
    saves under [key]. *)
Definition saving (key : string) (nav : nat) (n : Navigator) : Prop :=
  List.map snd (List.filter (fun l => String.eqb (fst l) "change") (nav_listeners n))
  = [SaveState key nav].

Definition moved (history index : jsval) (n : Navigator) : Navigator :=
  {| nav_history := history; nav_index := index;
     nav_options := nav_options n; nav_listeners := nav_listeners n |}.

(** The text written for a navigation that leads to a history and an index. *)
Definition saved_text (step : jsval * jsval) : string :=
  JSON_stringify (JObj [("index", snd step); ("history", fst step)]).

End Vocabulary.

(** *** Vocabulary of the further properties *)

Section MoreVocabulary.
Context `{Imports}.

(** The body of the [try] block fails with [e] on the stored text: at
    [JSON.parse], at the destructuring, or in the constructor. *)
Definition restore_fails (raw : string) (options : jsval) (e : exn) : Prop :=
  JSON_parse raw = Throw e
  \/ exists v, JSON_parse raw = Ok v
       /\ (destructure v = Throw e
           \/ exists index history,
                destructure v = Ok (index, history)
                /\ nav_rejects history index options = Some e).

(** The console entry of a failed restoration. *)
Definition restore_log (e : exn) : string * exn :=
  ("Unable to restore hash navigator state.", e).

End MoreVocabulary.

End Navigation.

(** ** The mini-apps event emitter singleton *)

Module Singleton.

(** A listener function, by identity. *)
Definition ListenerId : Type := nat.

(** An emitter object: its subscriptions in registration order. *)
Record Emitter : Type := { subscriptions : list (string * ListenerId) }.

(** Emitters live in a heap and are named by reference: a caller may keep one
    after the singleton has let go of it. *)
Record World : Type := {
  emitters : gmap nat Emitter;
  next_emitter : nat;
  cached : option nat;
  cleanups : list nat;
}.

Definition M : Type -> Type := Eff World.

Definition same (event : string) (listener : ListenerId)
    (s : string * ListenerId) : bool :=
  String.eqb (fst s) event && (snd s =? listener)%nat.

Fixpoint remove_first (event : string) (listener : ListenerId)
    (subs : list (string * ListenerId)) : list (string * ListenerId) :=
  match subs with
  | [] => []
  | s :: rest =>
      if same event listener s then rest
      else s :: remove_first event listener rest
  end.

(** [emitter.count]: the number of live listeners; an object that was never
    created has none. *)
Definition count_of (w : World) (emitter : nat) : nat :=
  match emitters w !! emitter with
  | Some e => length (subscriptions e)
  | None => 0
  end.

Definition count (emitter : nat) : M nat := fun w => (Ok (count_of w emitter), w).

Definition update (emitter : nat) (f : Emitter -> Emitter) : M unit := fun w =>
  (Ok tt, {| emitters := alter f emitter (emitters w);
             next_emitter := next_emitter w;
             cached := cached w; cleanups := cleanups w |}).

(** Modelled from the spec: the [EventEmitter] class is not among the sources.
    Section
    4.3: [on] adds a listener, [off] removes one and is a no-op if the
    listener was never registered, [count] is the number of live listeners. *)
Definition on (emitter : nat) (event : string) (listener : ListenerId) : M unit :=
  update emitter (fun e => {| subscriptions := subscriptions e ++ [(event, listener)] |}).

(** Modelled from the spec: the emitter's own [off] (section 4.3), the one the
    wrapper binds before it rewires the method. *)
Definition bound_off (emitter : nat) (event : string) (listener : ListenerId)
    : M unit :=
  update emitter (fun e =>
    {| subscriptions := remove_first event listener (subscriptions e) |}).

(** Modelled from the spec: [createMiniAppsEventEmitter] is not among the
    sources; it
    returns a new emitter and its cleanup.  The cleanup is the one of the
    emitter of that reference; a call of it is recorded. *)
Definition createMiniAppsEventEmitter : M nat := fun w =>
  (Ok (next_emitter w),
   {| emitters := <[next_emitter w := {| subscriptions := [] |}]> (emitters w);
      next_emitter := S (next_emitter w);
      cached := cached w; cleanups := cleanups w |}).

Definition cleanup (emitter : nat) : M unit := fun w =>
  (Ok tt, {| emitters := emitters w; next_emitter := next_emitter w;
             cached := cached w; cleanups := cleanups w ++ [emitter] |}).

Definition set_cached (c : option nat) : M unit := fun w =>
  (Ok tt, {| emitters := emitters w; next_emitter := next_emitter w;
             cached := c; cleanups := cleanups w |}).

Definition get_cached : M (option nat) := fun w => (Ok (cached w), w).

(** Modelled from the spec: [createSingleton] (misc/createSingleton.js) is not
    among the sources.  Section 5: the singleton is torn down, its cleanup invoked, then
    lazily recreated on next use.  [reset] runs the second argument of
    [createSingleton], here [([, cleanup]) => cleanup()], on the cached value
    and forgets it; it does nothing when nothing is cached. *)
Definition resetMiniAppsEventEmitter : M unit :=
  c ← get_cached;
  match c with
  | Some emitter => _ ← cleanup emitter; set_cached None
  | None => mret tt
  end.

(** The rewired [off] of an emitter made by the singleton's factory. *)
Definition off (emitter : nat) (event : string) (listener : ListenerId) : M unit :=
  n ← count emitter;
  _ ← bound_off emitter event listener;
  n' ← count emitter;
  if negb (n =? 0)%nat && (n' =? 0)%nat then resetMiniAppsEventEmitter
  else mret tt.

(** The factory passed to [createSingleton]: the emitter it returns has the
    rewired [off]. *)
Definition create : M nat := createMiniAppsEventEmitter.

(** Modelled from the spec: the [get] of [createSingleton]: the cached value,
    created on first use. *)
Definition get : M nat :=
  c ← get_cached;
  match c with
  | Some emitter => mret emitter
  | None => emitter ← create; _ ← set_cached (Some emitter); mret emitter
  end.

Definition miniAppsEventEmitter : M nat := get.

(** *** Vocabulary of the further properties *)

(** Subscriptions made, and removed, one after the other. *)
Fixpoint ons (emitter : nat) (subs : list (string * ListenerId)) : M unit :=
  match subs with
  | [] => mret tt
  | (event, listener) :: rest => _ ← on emitter event listener; ons emitter rest
  end.

Fixpoint offs (emitter : nat) (subs : list (string * ListenerId)) : M unit :=
  match subs with
  | [] => mret tt
  | (event, listener) :: rest => _ ← off emitter event listener; offs emitter rest
  end.

(** A consumer's use of the singleton: take the emitter, subscribe, and later
    unsubscribe in the same order. *)
Definition subscribe_all (subs : list (string * ListenerId)) : M nat :=
  emitter ← miniAppsEventEmitter;
  _ ← ons emitter subs;
  mret emitter.

End Singleton.

(** ** Initialisation of the MiniApp component *)

Module InitMiniApp.

(** The argument of the factory, by the parts its parameter pattern names:
    [themeParams], the optional [botInline] and [state], and [rest], the
    remaining properties. *)
Record Options : Type := {
  themeParams : jsval;
  botInline : option bool;
  state : option jsobj;
  rest : gmap string jsval;
}.

(** Whether a value counts as true in [a || b]. *)
Definition truthy (v : jsval) : bool :=
  match v with
  | JUndefined | JNull => false
  | JBool b => b
  | JNum n => negb (n =? 0)%Z
  | JStr EmptyString => false
  | JStr _ => true
  | JArr _ | JObj _ => true
  end.

(** [a || b] *)
Definition or_else (a b : jsval) : jsval := if truthy a then a else b.

(** [v.k]: a [TypeError] on [null] and [undefined]. *)
Definition member (v : jsval) (k : string) : Result jsval :=
  match v with
  | JUndefined | JNull =>
      Throw (Exn "TypeError" ("Cannot read properties of undefined (reading '"
                              +:+ k +:+ "')"))
  | _ => Ok (prop v k)
  end.

(** The default of [state]; it is evaluated only when [state] is absent. *)
Definition default_state (theme : jsval) : Result jsobj :=
  match member theme "bgColor" with
  | Throw e => Throw e
  | Ok bg =>
      match member theme "headerBgColor" with
      | Throw e => Throw e
      | Ok header =>
          Ok [("bgColor", or_else bg (JStr "#ffffff"));
              ("headerColor", or_else header (JStr "#000000"))]
      end
  end.

(** [{ ...rest, ...state, botInline }]: later properties replace earlier ones
    of the same name. *)
Definition props (rest : gmap string jsval) (state : jsobj) (botInline : bool)
    : gmap string jsval :=
  <["botInline" := JBool botInline]> (list_to_map state ∪ rest).

(** The factory passed to [createComponentInitFn]; the result is the argument
    it gives to [new MiniApp]. *)
Definition initMiniApp (o : Options) : Result (gmap string jsval) :=
  let inline := match botInline o with Some b => b | None => false end in
  match state o with
  | Some s => Ok (props (rest o) s inline)
  | None =>
      match default_state (themeParams o) with
      | Throw e => Throw e
      | Ok s => Ok (props (rest o) s inline)
      end
  end.

End InitMiniApp.
(** ** A sample host, for the concrete runs *)

Module Sample.
Import WebApp.

Fixpoint split_at (c : ascii) (s : string) : string * string :=
  match s with
  | EmptyString => (EmptyString, EmptyString)
  | String d s' =>
      if Ascii.eqb c d then (EmptyString, s)
      else let '(l, r) := split_at c s' in (String d l, r)
  end.

(** The URL parser on https URLs without port, credentials or fragment. *)
Definition parse_https (s : string) : Result URL :=
  match strip_prefix "https://" s with
  | None => Throw (Exn "TypeError" "Invalid URL")
  | Some rest =>
      let '(host, r) := split_at "/" rest in
      let '(path, q) := split_at "?" r in
      Ok {| hostname := host;
            pathname := match path with EmptyString => "/" | _ => path end;
            search := q |}
  end.

Definition is_hex (c : ascii) : bool :=
  in_range "0" "9" c || in_range "a" "f" c || in_range "A" "F" c.

Definition hex_colour (s : string) : bool :=
  match s with
  | String "#" rest => (String.length rest =? 6)%nat && all_chars is_hex rest
  | _ => false
  end.

(** A capability table by minimum version. *)
Definition min_version (event : string) : Version :=
  if String.eqb event "web_app_open_link" then [6; 1]
  else if String.eqb event "web_app_open_tg_link" then [6; 1]
  else if String.eqb event "web_app_open_invoice" then [6; 1]
  else if String.eqb event "web_app_set_header_color" then [6; 1]
  else if String.eqb event "web_app_set_background_color" then [6; 1]
  else [6; 0].

#[export] Instance host : Imports := {|
  formatURL := fun s =>
    match strip_prefix "https://" s with
    | Some _ => Ok s
    | None => Throw (Error "URL protocol is not supported")
    end;
  URL_new := parse_https;
  supports := fun event v => (0 <=? compareVersions v (min_version event))%Z;
  isRGB := hex_colour;
|}.

Definition w0 : World := {|
  w_state := {| backgroundColor := "#ffffff"; headerColor := "bg_color" |};
  w_trace := [];
  w_listeners := [];
  w_settled := ∅;
  w_next := 0;
|}.

Definition app_6_0 : WebApp := {| currentVersion := [6; 0]; currentPlatform := "ios" |}.
Definition app_6_10 : WebApp := {| currentVersion := [6; 10]; currentPlatform := "ios" |}.

End Sample.


(** A sample platform for the navigator: a serialiser for the values used in
    the concrete runs (strings without characters to escape), a parser that
    knows the documents listed in [known], a constructor that refuses what is
    no history with an index inside it. *)
Module SampleNav.
Import Navigation.

Definition show_Z (n : Z) : string :=
  if (n <? 0)%Z then "-" +:+ WebApp.show_nat (Z.to_nat (- n))
  else WebApp.show_nat (Z.to_nat n).

Fixpoint stringify (v : jsval) : string :=
  match v with
  | JUndefined | JNull => "null"
  | JBool b => if b then "true" else "false"
  | JNum n => show_Z n
  | JStr s => dq +:+ s +:+ dq
  | JArr items =>
      "[" +:+ (fix elements (l : list jsval) : string :=
                 match l with
                 | [] => EmptyString
                 | x :: rest =>
                     stringify x
                     +:+ match rest with
                         | [] => EmptyString
                         | _ => "," +:+ elements rest
                         end
                 end) items +:+ "]"
  | JObj fields =>
      "{" +:+ (fix members (l : list (string * jsval)) : string :=
                 match l with
                 | [] => EmptyString
                 | (k, x) :: rest =>
                     dq +:+ k +:+ dq +:+ ":" +:+ stringify x
                     +:+ match rest with
                         | [] => EmptyString
                         | _ => "," +:+ members rest
                         end
                 end) fields +:+ "}"
  end.

Definition abc : jsval := JArr [JStr "/a"; JStr "/b"; JStr "/c"].

Definition saved : jsval := JObj [("index", JNum 1); ("history", abc)].

Definition stored_text : string := stringify saved.

Definition known : list jsval := [saved; JNull; JNum 5].

Definition parse (s : string) : Result jsval :=
  match List.find (fun v => String.eqb (stringify v) s) known with
  | Some v => Ok v
  | None => Throw (Exn "SyntaxError" "Unexpected token")
  end.

Definition rejects (history index options : jsval) : option exn :=
  match history, index with
  | JArr items, JNum i =>
      if (0 <=? i)%Z && (i <? Z.of_nat (length items))%Z then None
      else Some (Error "Index is out of the history")
  | _, _ => Some (Exn "TypeError" "history is not an array")
  end.

#[export] Instance platform : Imports := {|
  JSON_parse := parse;
  JSON_stringify := stringify;
  nav_rejects := rejects;
  entry_of_location := fun loc _ => JStr loc;
|}.

Definition world (stored : gmap string string) : World := {|
  sessionStorage := stored;
  writes := [];
  heap := ∅;
  next_ref := 0;
  page_reload := true;
  location := "/start";
  console := [];
|}.

Definition fresh_world (stored : gmap string string) : World := {|
  sessionStorage := stored;
  writes := [];
  heap := ∅;
  next_ref := 0;
  page_reload := false;
  location := "/start";
  console := [];
|}.

End SampleNav.

Module SampleSingleton.
Import Singleton.

(** A singleton whose emitter has two listeners. *)
Definition two_listeners : World := {|
  emitters := <[0 := {| subscriptions := [("viewport_changed", 1);
                                          ("theme_changed", 2)] |}]> ∅;
  next_emitter := 1;
  cached := Some 0;
  cleanups := [];
|}.

(** The singleton after a reset, with an emitter that a consumer kept. *)
Definition replaced : World := {|
  emitters := <[1 := {| subscriptions := [("theme_changed", 2)] |}]>
                (<[0 := {| subscriptions := [("viewport_changed", 1)] |}]> ∅);
  next_emitter := 2;
  cached := Some 1;
  cleanups := [0];
|}.

Definition nothing_cached : World := {|
  emitters := ∅;
  next_emitter := 0;
  cached := None;
  cleanups := [];
|}.

(** A consumer keeps the first emitter across the reset that its own
    unsubscription causes and subscribes on it again; the singleton then
    serves a second emitter, which gets a listener of its own.  The result is
    the two emitters. *)
Definition kept_emitter_run : M (nat * nat) :=
  old ← miniAppsEventEmitter;
  _ ← on old "viewport_changed" 1;
  _ ← off old "viewport_changed" 1;
  _ ← on old "viewport_changed" 1;
  current ← miniAppsEventEmitter;
  _ ← on current "theme_changed" 2;
  mret (old, current).

End SampleSingleton.

Module SampleInit.
Import InitMiniApp.

(** A theme with a background colour and an empty header colour. *)
Definition theme : jsval :=
  JObj [("bgColor", JStr "#17212b"); ("headerBgColor", JStr EmptyString)].

Definition first_launch : Options := {|
  themeParams := theme;
  botInline := None;
  state := None;
  rest := {[ "version" := JStr "6.10" ]};
|}.

Definition relaunch : Options := {|
  themeParams := JUndefined;
  botInline := Some true;
  state := Some [("bgColor", JStr "#000000"); ("botInline", JBool false)];
  rest := {[ "version" := JStr "6.10"; "bgColor" := JStr "#ffffff" ]};
|}.

End SampleInit.
(** ** Versions: the comparator agrees with the order *)

Section VersionOrder.

Lemma component_nil i : component [] i = 0.
Proof. unfold component. destruct i; reflexivity. Qed.

Lemma component_0 x v : component (x :: v) 0 = x.
Proof. reflexivity. Qed.

Lemma component_S x v i : component (x :: v) (S i) = component v i.
Proof. reflexivity. Qed.

Lemma positive_tail_cons x v :
  positive_tail (x :: v) = (0 <? x)%nat || positive_tail v.
Proof. reflexivity. Qed.

Lemma positive_tail_false v :
  positive_tail v = false -> forall i, component v i = 0.
Proof.
  induction v as [|x v IH]; intros Hp i.
  - apply component_nil.
  - rewrite positive_tail_cons in Hp. apply orb_false_iff in Hp as [Hx Hv].
    apply Nat.ltb_ge in Hx.
    destruct i as [|i]; [rewrite component_0; lia | apply (IH Hv i)].
Qed.

Lemma positive_tail_true v :
  positive_tail v = true -> version_lt [] v.
Proof.
  induction v as [|x v IH]; intros Hp; [discriminate|].
  rewrite positive_tail_cons in Hp.
  destruct (0 <? x)%nat eqn:Hx.
  - apply Nat.ltb_lt in Hx. exists 0.
    split; [lia | rewrite component_0, component_nil; lia].
  - apply Nat.ltb_ge in Hx. cbn [orb] in Hp.
    destruct (IH Hp) as (i & Hpre & Hlt).
    exists (S i). split.
    + intros [|j] Hj; [rewrite component_0, component_nil; lia|].
      rewrite component_S, <- (Hpre j) by lia. now rewrite !component_nil.
    + rewrite component_S. now rewrite component_nil in *.
Qed.

Lemma version_lt_cons x a b : version_lt a b -> version_lt (x :: a) (x :: b).
Proof.
  intros (i & Hpre & Hlt). exists (S i). split; [|now rewrite !component_S].
  intros [|j] Hj; [reflexivity | rewrite !component_S; apply Hpre; lia].
Qed.

(** What each result of the comparator means. *)
Lemma compareVersions_sound a : forall b,
  match compareVersions a b with
  | Z0 => forall i, component a i = component b i
  | Zneg _ => version_lt a b
  | Zpos _ => version_lt b a
  end.
Proof.
  induction a as [|x a IH]; intros b.
  - cbn [compareVersions]. destruct (positive_tail b) eqn:Hp.
    + now apply positive_tail_true.
    + intros i. rewrite component_nil. symmetry. now apply positive_tail_false.
  - destruct b as [|y b].
    + cbn [compareVersions]. destruct (positive_tail (x :: a)) eqn:Hp.
      * now apply positive_tail_true.
      * intros i. rewrite component_nil. now apply positive_tail_false.
    + cbn [compareVersions]. destruct (x =? y)%nat eqn:Hxy.
      * apply Nat.eqb_eq in Hxy. subst y. specialize (IH b).
        destruct (compareVersions a b).
        -- intros [|i]; [reflexivity | rewrite !component_S; apply IH].
        -- now apply version_lt_cons.
        -- now apply version_lt_cons.
      * apply Nat.eqb_neq in Hxy. destruct (y <? x)%nat eqn:Hlt.
        -- apply Nat.ltb_lt in Hlt. exists 0.
           split; [lia | rewrite !component_0; lia].
        -- apply Nat.ltb_ge in Hlt. exists 0.
           split; [lia | rewrite !component_0; lia].
Qed.

Lemma version_lt_asym a b : version_lt a b -> version_lt b a -> False.
Proof.
  intros (i & Hi & Hlt) (j & Hj & Hlt').
  destruct (Nat.lt_trichotomy i j) as [Hij | [-> | Hij]].
  - specialize (Hj i Hij). lia.
  - lia.
  - specialize (Hi j Hij). lia.
Qed.

Lemma version_lt_irrefl_eq a b :
  version_lt a b -> (forall i, component a i = component b i) -> False.
Proof. intros (i & _ & Hlt) Heq. specialize (Heq i). lia. Qed.

Lemma compareVersions_nonneg_iff a b :
  (0 <= compareVersions a b)%Z <-> version_le b a.
Proof.
  pose proof (compareVersions_sound a b) as Hs.
  destruct (compareVersions a b) eqn:Hc; split; intros Hle; try lia.
  - right. intros i. symmetry. apply Hs.
  - left. exact Hs.
  - exfalso. destruct Hle as [Hlt | Heq].
    + exact (version_lt_asym _ _ Hs Hlt).
    + apply (version_lt_irrefl_eq _ _ Hs). intros i. symmetry. apply Heq.
Qed.

Example compareVersions_examples :
  compareVersions [10; 0] [9; 9] = 1%Z
  /\ compareVersions [6; 2] [6; 10] = (-1)%Z
  /\ compareVersions [6] [6; 0; 0] = 0%Z
  /\ compareVersions [6; 0; 1] [6] = 1%Z.
Proof. repeat split. Qed.

End VersionOrder.

(** ** Properties of the WebApp component *)

Module WebAppFacts.
Import WebApp.

Lemma traced_effect (e : Effect) (w : World) : traced w [e] (snd (effect e w)).
Proof. repeat split. Qed.

Ltac run :=
  unfold mbind, Eff_bind, mret, Eff_ret, lift, throw, postEvent, effect, State_set, async;
  cbn [fst snd].

(** C3. [sendData] rejects data of 0 bytes or of more than 4096 bytes with an
    exception raised before any bridge call, the world being left as it was;
    on data of 1 to 4096 bytes it makes exactly one bridge call,
    [web_app_data_send] carrying the data, and returns normally. *)
Theorem sendData_size_check (data : string) (w : World) :
  (blob_size data = 0 \/ 4096 < blob_size data ->
     sendData data w
     = (Throw (Error ("Passed data has incorrect size: "
                      +:+ show_nat (blob_size data))), w))
  /\ (1 <= blob_size data <= 4096 ->
     exists w', sendData data w = (Ok tt, w')
       /\ traced w [PostEvent "web_app_data_send" (Some [("data", JStr data)])] w').
Proof.
  unfold sendData. split.
  - intros Hsize.
    assert ((blob_size data =? 0)%nat || (4096 <? blob_size data)%nat = true) as ->.
    { apply orb_true_iff. destruct Hsize as [H0 | Hbig].
      - left. now apply Nat.eqb_eq.
      - right. now apply Nat.ltb_lt. }
    reflexivity.
  - intros [Hlo Hhi].
    assert ((blob_size data =? 0)%nat || (4096 <? blob_size data)%nat = false) as ->.
    { apply orb_false_iff. split; [apply Nat.eqb_neq | apply Nat.ltb_ge]; lia. }
    eexists. split; [reflexivity | apply traced_effect].
Qed.

Lemma sendData_size_check_witness :
  (exists w', sendData "hello" Sample.w0 = (Ok tt, w')
     /\ traced Sample.w0
          [PostEvent "web_app_data_send" (Some [("data", JStr "hello")])] w')
  /\ sendData EmptyString Sample.w0
     = (Throw (Error "Passed data has incorrect size: 0"), Sample.w0).
Proof.
  split.
  - apply (proj2 (sendData_size_check "hello" Sample.w0)). cbn. lia.
  - apply (proj1 (sendData_size_check EmptyString Sample.w0)). left. reflexivity.
Defined.

(** C10. [isVersionAtLeast v] is true exactly when
    [compareVersions(v, currentVersion) >= 0], that is when the current
    version is at most the passed one in the order on versions. *)
Theorem isVersionAtLeast_passed_at_least_current (this : WebApp) (v : Version) :
  (isVersionAtLeast this v = true <-> (compareVersions v (version this) >= 0)%Z)
  /\ (isVersionAtLeast this v = true <-> version_le (version this) v).
Proof.
  unfold isVersionAtLeast. split.
  - rewrite Z.leb_le. lia.
  - rewrite Z.leb_le. apply compareVersions_nonneg_iff.
Qed.

(** At version 6.10 the test refuses 6.2, which the current version exceeds,
    and accepts 7.0. *)
Example isVersionAtLeast_6_10 :
  isVersionAtLeast Sample.app_6_10 [6; 2] = false
  /\ isVersionAtLeast Sample.app_6_10 [7; 0] = true
  /\ isVersionAtLeast Sample.app_6_10 [6; 10; 0] = true.
Proof. repeat split. Qed.

Section WithImports.
Context `{Imports}.
Variable this : WebApp.

(** C7. [openLink] raises nothing of its own.  On a URL that [formatURL]
    accepts it returns normally after one effect: the bridge call
    [web_app_open_link] with the formatted URL (and [try_instant_view] only
    when a boolean was passed) when the event is supported at the current
    version, and otherwise [window.open] on the formatted URL with no bridge
    call.  The only exception is the one of [formatURL], passed on. *)
Theorem openLink_never_unsupported (url : string) (tryInstantView : option bool)
    (w : World) :
  (forall f, formatURL url = Ok f ->
     exists w', openLink this url tryInstantView w = (Ok tt, w')
       /\ traced w
            [if supports "web_app_open_link" (version this)
             then PostEvent "web_app_open_link"
                    (Some (open_link_params f tryInstantView))
             else WindowOpen f "_blank"] w')
  /\ (forall e, formatURL url = Throw e ->
        openLink this url tryInstantView w = (Throw e, w)).
Proof.
  unfold openLink. run. split.
  - intros f ->. unfold version.
    destruct (supports "web_app_open_link" (currentVersion this)); cbn [negb];
      eexists; (split; [reflexivity | repeat split]).
  - intros e ->. reflexivity.
Qed.

Lemma setHeaderColor_run (color : string) (w : World) :
  exists w', setHeaderColor color w = (Ok tt, w')
    /\ w_trace w' = w_trace w ++ [header_color_call color;
                                  StateUpdate KHeaderColor color;
                                  Emit KHeaderColor color]
    /\ w_state w' = set_field KHeaderColor color (w_state w)
    /\ w_listeners w' = w_listeners w.
Proof.
  unfold setHeaderColor. run. eexists. split; [reflexivity|].
  cbn. rewrite <- app_assoc. repeat split.
Qed.

Lemma setBackgroundColor_run (color : string) (w : World) :
  exists w', setBackgroundColor color w = (Ok tt, w')
    /\ w_trace w' = w_trace w ++ [background_color_call color;
                                  StateUpdate KBackgroundColor color;
                                  Emit KBackgroundColor color]
    /\ w_state w' = set_field KBackgroundColor color (w_state w)
    /\ w_listeners w' = w_listeners w.
Proof.
  unfold setBackgroundColor. run. eexists. split; [reflexivity|].
  cbn. rewrite <- app_assoc. repeat split.
Qed.

(** C6. Every call of [setHeaderColor] and of [setBackgroundColor] performs
    three effects in this order: the bridge call, the write of the state
    field, the change event; so the bridge call is in the trace before the
    event is emitted. *)
Theorem color_mutators_order (color : string) (w : World) :
  (exists w', setHeaderColor color w = (Ok tt, w')
     /\ w_trace w' = w_trace w ++ [header_color_call color;
                                   StateUpdate KHeaderColor color;
                                   Emit KHeaderColor color]
     /\ w_state w' = set_field KHeaderColor color (w_state w))
  /\ (exists w', setBackgroundColor color w = (Ok tt, w')
     /\ w_trace w' = w_trace w ++ [background_color_call color;
                                   StateUpdate KBackgroundColor color;
                                   Emit KBackgroundColor color]
     /\ w_state w' = set_field KBackgroundColor color (w_state w)).
Proof.
  split.
  - destruct (setHeaderColor_run color w) as (w' & Hrun & Htrace & Hstate & _).
    exists w'. auto.
  - destruct (setBackgroundColor_run color w) as (w' & Hrun & Htrace & Hstate & _).
    exists w'. auto.
Qed.

(** C2, as the code has it.  [setHeaderColor] and [setBackgroundColor] have
    entries in the supports table: [this.supports] answers for them by the
    support of [web_app_set_header_color] and [web_app_set_background_color]
    at the current version.  No capability check precedes their bridge call:
    whatever that answer, and so also when the capability is unsupported, the
    call returns normally and the trace grows by the bridge event, the state
    write and the change event and by nothing else, so that the call neither
    does nothing, nor falls back to a browser API, nor fails. *)
Theorem color_mutators_unchecked (color : string) (w : World) :
  (In ("setHeaderColor", "web_app_set_header_color") supports_table
   /\ In ("setBackgroundColor", "web_app_set_background_color") supports_table
   /\ this_supports this "setHeaderColor"
      = supports "web_app_set_header_color" (version this)
   /\ this_supports this "setBackgroundColor"
      = supports "web_app_set_background_color" (version this))
  /\ (exists w', setHeaderColor color w = (Ok tt, w')
       /\ w_trace w' = w_trace w ++ [header_color_call color;
                                     StateUpdate KHeaderColor color;
                                     Emit KHeaderColor color])
  /\ (exists w', setBackgroundColor color w = (Ok tt, w')
       /\ w_trace w' = w_trace w ++ [background_color_call color;
                                     StateUpdate KBackgroundColor color;
                                     Emit KBackgroundColor color])
  /\ (this_supports this "setHeaderColor" = false ->
      fst (setHeaderColor color w) = Ok tt
      /\ In (header_color_call color) (w_trace (snd (setHeaderColor color w))))
  /\ (this_supports this "setBackgroundColor" = false ->
      fst (setBackgroundColor color w) = Ok tt
      /\ In (background_color_call color)
           (w_trace (snd (setBackgroundColor color w)))).
Proof.
  destruct (setHeaderColor_run color w) as (wh & Hh & Hhtrace & _).
  destruct (setBackgroundColor_run color w) as (wb & Hb & Hbtrace & _).
  split.
  { split; [cbn; tauto|]. split; [cbn; tauto|]. split; reflexivity. }
  split; [exists wh; auto|]. split; [exists wb; auto|]. split.
  - intros _. rewrite Hh. cbn [fst snd]. split; [reflexivity|].
    rewrite Hhtrace. apply in_or_app. right. left. reflexivity.
  - intros _. rewrite Hb. cbn [fst snd]. split; [reflexivity|].
    rewrite Hbtrace. apply in_or_app. right. left. reflexivity.
Qed.

End WithImports.


(** *** Rejected links *)

Lemma strip_prefix_app (p r : string) : strip_prefix p (p +:+ r) = Some r.
Proof.
  induction p as [|c p IH]; [reflexivity|].
  change (String c p +:+ r) with (String c (p +:+ r)).
  cbn [strip_prefix]. now rewrite Ascii.eqb_refl.
Qed.

Lemma strip_prefix_Some (p s r : string) :
  strip_prefix p s = Some r -> s = p +:+ r.
Proof.
  revert s. induction p as [|c p IH]; intros s Hs; cbn [strip_prefix] in Hs.
  - injection Hs as ->. reflexivity.
  - destruct s as [|d s]; [discriminate|].
    destruct (Ascii.eqb c d) eqn:Hcd; [|discriminate].
    apply Ascii.eqb_eq in Hcd. subst d.
    change (String c p +:+ r) with (String c (p +:+ r)).
    f_equal. now apply IH.
Qed.

(** The regular expression accepts exactly the paths [/$slug] and
    [/invoice/slug] with a slug of one character or more among letters,
    digits, [-], [_] and [=]. *)
Lemma match_invoice_iff (path g slug : string) :
  match_invoice path = Some (g, slug)
  <-> (g = "$" \/ g = "invoice/") /\ path = "/" +:+ g +:+ slug /\ slug_ok slug = true.
Proof.
  unfold match_invoice. split.
  - destruct (strip_prefix "/" path) as [rest|] eqn:H1; [|discriminate].
    apply strip_prefix_Some in H1. subst path.
    destruct (strip_prefix "$" rest) as [s1|] eqn:H2.
    + apply strip_prefix_Some in H2. subst rest.
      destruct (slug_ok s1) eqn:Hok; [|discriminate].
      intros [= <- <-]. auto.
    + destruct (strip_prefix "invoice/" rest) as [s2|] eqn:H3; [|discriminate].
      apply strip_prefix_Some in H3. subst rest.
      destruct (slug_ok s2) eqn:Hok; [|discriminate].
      intros [= <- <-]. auto.
  - intros ([-> | ->] & -> & Hok).
    + change ("/" +:+ "$" +:+ slug) with (String "/" (String "$" slug)).
      cbn -[slug_ok]. now rewrite Hok.
    + change ("/" +:+ "invoice/" +:+ slug) with (String "/" ("invoice/" +:+ slug)).
      cbn -[slug_ok String.append strip_prefix].
      change (strip_prefix "/" (String "/" ("invoice/" +:+ slug)))
        with (Some ("invoice/" +:+ slug)).
      cbv iota beta.
      change (strip_prefix "$" ("invoice/" +:+ slug)) with (@None string).
      cbv iota beta.
      now rewrite strip_prefix_app, Hok.
Qed.

Example match_invoice_examples :
  match_invoice "/invoice/my-slug" = Some ("invoice/", "my-slug")
  /\ match_invoice "/$my-slug" = Some ("$", "my-slug")
  /\ match_invoice "/invoice/" = None
  /\ match_invoice "/$" = None
  /\ match_invoice "/invoice/a/b" = None
  /\ match_invoice "/pay/my-slug" = None
  /\ match_invoice "invoice/my-slug" = None.
Proof. repeat split. Qed.

Section Links.
Context `{Imports}.
Variable this : WebApp.

(** How a call of [openInvoice] ends: with a promise, already rejected and the
    world untouched, or waiting on the request it has just issued. *)
Lemma openInvoice_cases (url : string) (w : World) :
  (exists e, openInvoice url w = (Ok (PRejected e), w))
  \/ (exists slug,
        openInvoice url w
        = (Ok (PThen (w_next w) (fun result => prop result "status")),
           snd (request "web_app_open_invoice" [("slug", JStr slug)]
                  "invoice_closed" (capture_slug slug) w))).
Proof.
  unfold openInvoice. run.
  destruct (formatURL url) as [f|e]; [|left; eauto].
  destruct (URL_new f) as [u|e]; [|left; eauto].
  destruct (negb (String.eqb (hostname u) "t.me")); [left; eauto|].
  destruct (match_invoice (pathname u)) as [[g slug]|]; [|left; eauto].
  right. exists slug. reflexivity.
Qed.

(** C8, as the code has it.  For a URL whose formatted hostname is not
    [t.me], [openTelegramLink] throws, and [openInvoice], an async method,
    returns a promise that is already rejected with the error; [openInvoice]
    does the same when the pathname is neither [/invoice/slug] nor [/$slug].
    In all these cases the world is left as it was: no bridge call is issued
    and no listener is registered.  [openInvoice] itself never throws. *)
Theorem bad_link_rejected (url f : string) (u : URL) (w : World) :
  formatURL url = Ok f ->
  URL_new f = Ok u ->
  (hostname u <> "t.me" ->
     openTelegramLink this url w = (Throw (bad_hostname_telegram (hostname u)), w)
     /\ openInvoice url w = (Ok (PRejected (bad_hostname_invoice (hostname u))), w))
  /\ (hostname u = "t.me" -> match_invoice (pathname u) = None ->
      openInvoice url w = (Ok (PRejected bad_pathname), w))
  /\ (forall e w', openInvoice url w <> (Throw e, w')).
Proof.
  intros Hf Hu. split; [|split].
  - intros Hhost. apply String.eqb_neq in Hhost.
    unfold openTelegramLink, openInvoice. run.
    rewrite Hf, Hu, Hhost. split; reflexivity.
  - intros Hhost Hpath. apply String.eqb_eq in Hhost.
    unfold openInvoice. run. rewrite Hf, Hu, Hhost, Hpath. reflexivity.
  - intros e w' Hthrow.
    destruct (openInvoice_cases url w) as [[e' Hr] | [slug Hr]];
      rewrite Hr in Hthrow; discriminate.
Qed.

End Links.

(** On the sample host, at version 6.0, the capability behind
    [setHeaderColor] is unsupported and the bridge event is issued all the
    same. *)
Lemma setHeaderColor_posts_when_unsupported :
  @this_supports Sample.host Sample.app_6_0 "setHeaderColor" = false
  /\ @supports Sample.host "web_app_set_header_color" (version Sample.app_6_0) = false
  /\ exists w', @setHeaderColor Sample.host "bg_color" Sample.w0 = (Ok tt, w')
       /\ w_trace w'
          = [PostEvent "web_app_set_header_color" (Some [("color_key", JStr "bg_color")]);
             StateUpdate KHeaderColor "bg_color";
             Emit KHeaderColor "bg_color"].
Proof.
  split; [reflexivity|]. split; [reflexivity|].
  eexists. split; reflexivity.
Qed.

Lemma color_mutators_unchecked_witness :
  @this_supports Sample.host Sample.app_6_0 "setBackgroundColor" = false
  /\ fst (setBackgroundColor "#17212b" Sample.w0) = Ok tt
  /\ In (PostEvent "web_app_set_background_color" (Some [("color", JStr "#17212b")]))
       (w_trace (snd (setBackgroundColor "#17212b" Sample.w0))).
Proof.
  split; [reflexivity|].
  exact (proj2 (proj2 (proj2 (proj2
           (@color_mutators_unchecked Sample.host Sample.app_6_0 "#17212b" Sample.w0))))
           eq_refl).
Defined.

(** On the sample host, [openInvoice] on a URL of another host does not
    throw: it returns a rejected promise. *)
Lemma openInvoice_bad_host_returns_promise :
  hostname <$> (match @URL_new Sample.host "https://example.com/pay" with
                | Ok u => Some u | Throw _ => None end) = Some "example.com"
  /\ @openInvoice Sample.host "https://example.com/pay" Sample.w0
     = (Ok (PRejected (Error "Incorrect hostname: example.com")), Sample.w0)
  /\ forall e w', @openInvoice Sample.host "https://example.com/pay" Sample.w0
                  <> (Throw e, w').
Proof.
  split; [reflexivity|]. split; [reflexivity|].
  intros e w'. discriminate.
Qed.

Lemma bad_link_rejected_witness :
  (@openTelegramLink Sample.host Sample.app_6_10 "https://example.com/pay" Sample.w0
   = (Throw (bad_hostname_telegram "example.com"), Sample.w0)
   /\ @openInvoice Sample.host "https://example.com/pay" Sample.w0
      = (Ok (PRejected (bad_hostname_invoice "example.com")), Sample.w0))
  /\ @openInvoice Sample.host "https://t.me/pay/abc" Sample.w0
     = (Ok (PRejected bad_pathname), Sample.w0).
Proof.
  split.
  - refine (proj1 (@bad_link_rejected Sample.host Sample.app_6_10
                     "https://example.com/pay" "https://example.com/pay"
                     {| hostname := "example.com"; pathname := "/pay";
                        search := EmptyString |}
                     Sample.w0 eq_refl eq_refl) _).
    cbn. discriminate.
  - refine (proj1 (proj2 (@bad_link_rejected Sample.host Sample.app_6_10
                            "https://t.me/pay/abc" "https://t.me/pay/abc"
                            {| hostname := "t.me"; pathname := "/pay/abc";
                               search := EmptyString |}
                            Sample.w0 eq_refl eq_refl)) eq_refl eq_refl).
Defined.

Lemma openLink_never_unsupported_witness :
  exists w',
    @openLink Sample.host Sample.app_6_0 "https://example.com/a" (Some true) Sample.w0
    = (Ok tt, w')
    /\ traced Sample.w0 [WindowOpen "https://example.com/a" "_blank"] w'.
Proof.
  exact (proj1 (@openLink_never_unsupported Sample.host Sample.app_6_0
                  "https://example.com/a" (Some true) Sample.w0)
           "https://example.com/a" eq_refl).
Defined.

(** *** Invoices: requests settle on their own slug *)

Lemma settle_all_lookup (payload : jsobj) (hit : list Listener)
    (m : gmap nat jsval) (r : nat) :
  settle_all payload hit m !! r
  = if existsb (fun l => (l_request l =? r)%nat) hit
    then Some (JObj payload) else m !! r.
Proof.
  induction hit as [|l hit IH]; cbn [settle_all foldr existsb]; [reflexivity|].
  fold (settle_all payload hit m).
  destruct (l_request l =? r)%nat eqn:Hlr; cbn [orb].
  - apply Nat.eqb_eq in Hlr. subst r. apply lookup_insert_eq.
  - apply Nat.eqb_neq in Hlr. rewrite lookup_insert_ne by exact Hlr. exact IH.
Qed.

Lemma fresh_deliver (event : string) (payload : jsobj) (w : World) :
  fresh w -> fresh (deliver event payload w).
Proof.
  intros [Hl Hs]. split; cbn [deliver w_listeners w_settled w_next].
  - intros l Hin. apply List.filter_In in Hin as [Hin _]. now apply Hl.
  - intros r v. rewrite settle_all_lookup.
    destruct (existsb _ _) eqn:Hex; [|apply Hs].
    intros _. apply existsb_exists in Hex as (l & Hin & Hlr).
    apply Nat.eqb_eq in Hlr. subst r.
    apply List.filter_In in Hin as [Hin _]. now apply Hl.
Qed.

Lemma fresh_request (method : string) (params : jsobj) (event : string)
    (capture : jsobj -> bool) (w : World) :
  fresh w -> fresh (snd (request method params event capture w)).
Proof.
  intros [Hl Hs]. split; cbn.
  - intros l Hin. apply in_app_or in Hin as [Hin | [<- | []]].
    + specialize (Hl l Hin). lia.
    + cbn. lia.
  - intros r v Hr. specialize (Hs r v Hr). lia.
Qed.

Section Invoices.
Context `{Imports}.

Lemma fresh_step (w : World) (a : Action) : fresh w -> fresh (step w a).
Proof.
  intros Hf. destruct a as [event payload | url]; cbn [step].
  - now apply fresh_deliver.
  - destruct (openInvoice_cases url w) as [[e ->] | [slug ->]]; cbn [snd].
    + exact Hf.
    + now apply fresh_request.
Qed.

Lemma step_call_other (w : World) (url : string) (r : nat) :
  r < w_next w ->
  let w' := step w (Call url) in
  w_settled w' = w_settled w
  /\ w_next w <= w_next w'
  /\ (forall l, In l (w_listeners w') ->
        In l (w_listeners w) \/ l_request l = w_next w)
  /\ (forall l, In l (w_listeners w) -> In l (w_listeners w')).
Proof.
  intros Hr. cbn [step].
  destruct (openInvoice_cases url w) as [[e ->] | [slug ->]]; cbn.
  - repeat split; auto.
  - repeat split; [lia | |].
    + intros l Hin. apply in_app_or in Hin as [Hin | [<- | []]]; auto.
    + intros l Hin. apply in_or_app. now left.
Qed.

Lemma waits_step (w : World) (r : nat) (slug : string) (a : Action) :
  waits w r slug -> closes slug a = None -> waits (step w a) r slug.
Proof.
  intros (Hf & Hr & Hnone & (l0 & Hin0 & Hl0) & Hall) Hc.
  split; [now apply fresh_step|].
  destruct a as [event payload | url].
  - cbn [closes] in Hc.
    destruct (String.eqb event "invoice_closed"
              && str_strict_eq slug (field "slug" payload)) eqn:Hb; [discriminate|].
    assert (forall l, In l (w_listeners w) -> l_request l = r ->
              claims event payload l = false) as Hnot.
    { intros l Hin Hlr. destruct (Hall l Hin Hlr) as [Hev Hcap].
      unfold claims. rewrite Hev, Hcap. unfold capture_slug.
      rewrite String.eqb_sym. exact Hb. }
    cbn [step deliver w_listeners w_settled w_next].
    split; [exact Hr|]. split; [|split].
    + rewrite settle_all_lookup.
      destruct (existsb _ _) eqn:Hex; [|exact Hnone].
      apply existsb_exists in Hex as (l & Hin & Hlr).
      apply Nat.eqb_eq in Hlr.
      apply List.filter_In in Hin as [Hin Hcl].
      rewrite (Hnot l Hin Hlr) in Hcl. discriminate.
    + exists l0. split; [|exact Hl0].
      apply List.filter_In. split; [exact Hin0|].
      now rewrite (Hnot l0 Hin0 Hl0).
    + intros l Hin. apply List.filter_In in Hin as [Hin _]. now apply Hall.
  - destruct (step_call_other w url r Hr) as (Hs & Hn & Hnew & Hold).
    split; [lia|]. split; [now rewrite Hs|]. split.
    + exists l0. split; [now apply Hold | exact Hl0].
    + intros l Hin Hlr. destruct (Hnew l Hin) as [Hin' | Hnext].
      * now apply Hall.
      * lia.
Qed.

Lemma waits_close (w : World) (r : nat) (slug : string) (a : Action)
    (status : jsval) :
  waits w r slug -> closes slug a = Some status ->
  exists v, settled_with (step w a) r v /\ prop v "status" = status.
Proof.
  intros (Hf & Hr & Hnone & (l0 & Hin0 & Hl0) & Hall) Hc.
  destruct a as [event payload | url]; [|discriminate].
  cbn [closes] in Hc.
  destruct (String.eqb event "invoice_closed"
            && str_strict_eq slug (field "slug" payload)) eqn:Hb; [|discriminate].
  injection Hc as <-.
  assert (forall l, In l (w_listeners w) -> l_request l = r ->
            claims event payload l = true) as Hyes.
  { intros l Hin Hlr. destruct (Hall l Hin Hlr) as [Hev Hcap].
    unfold claims. rewrite Hev, Hcap. unfold capture_slug.
    rewrite String.eqb_sym. exact Hb. }
  exists (JObj payload). split; [|reflexivity].
  split; [now apply (fresh_step w (Incoming event payload))|].
  cbn [step deliver w_listeners w_settled w_next].
  split; [exact Hr|]. split.
  - rewrite settle_all_lookup.
    assert (existsb (fun l => (l_request l =? r)%nat)
              (List.filter (claims event payload) (w_listeners w)) = true) as ->.
    { apply existsb_exists. exists l0. split.
      - apply List.filter_In. split; [exact Hin0 | now apply Hyes].
      - now apply Nat.eqb_eq. }
    reflexivity.
  - intros l Hin Hlr. apply List.filter_In in Hin as [Hin Hcl].
    rewrite (Hyes l Hin Hlr) in Hcl. discriminate.
Qed.

Lemma settled_step (w : World) (r : nat) (v : jsval) (a : Action) :
  settled_with w r v -> settled_with (step w a) r v.
Proof.
  intros (Hf & Hr & Hsome & Hno).
  split; [now apply fresh_step|].
  destruct a as [event payload | url].
  - cbn [step deliver w_listeners w_settled w_next].
    split; [exact Hr|]. split.
    + rewrite settle_all_lookup.
      destruct (existsb _ _) eqn:Hex; [|exact Hsome].
      apply existsb_exists in Hex as (l & Hin & Hlr).
      apply Nat.eqb_eq in Hlr.
      apply List.filter_In in Hin as [Hin _].
      now destruct (Hno l Hin).
    + intros l Hin. apply List.filter_In in Hin as [Hin _]. now apply Hno.
  - destruct (step_call_other w url r Hr) as (Hs & Hn & Hnew & _).
    split; [lia|]. split; [now rewrite Hs|].
    intros l Hin. destruct (Hnew l Hin) as [Hin' | Hnext]; [now apply Hno | lia].
Qed.

Lemma settled_run (acts : list Action) : forall (w : World) (r : nat) (v : jsval),
  settled_with w r v -> w_settled (run_actions acts w) !! r = Some v.
Proof.
  induction acts as [|a acts IH]; intros w r v Hs.
  - apply Hs.
  - cbn [run_actions fold_left]. apply (IH (step w a)). now apply settled_step.
Qed.

Lemma waits_run (acts : list Action) : forall (w : World) (r : nat) (slug : string),
  waits w r slug ->
  poll (run_actions acts w) (PThen r (fun result => prop result "status"))
  = match first_close slug acts with
    | Some status => Fulfilled status
    | None => Pending
    end.
Proof.
  induction acts as [|a acts IH]; intros w r slug Hw.
  - cbn. destruct Hw as (_ & _ & -> & _). reflexivity.
  - cbn [first_close run_actions fold_left].
    destruct (closes slug a) as [status|] eqn:Hc.
    + destruct (waits_close w r slug a status Hw Hc) as (v & Hs & Hv).
      cbn [poll]. fold (run_actions acts (step w a)).
      rewrite (settled_run acts _ _ _ Hs). now rewrite Hv.
    + apply (IH (step w a)). now apply waits_step.
Qed.

(** C1.  For a URL that [openInvoice] accepts (hostname [t.me], pathname
    [/invoice/slug] or [/$slug]) the call issues one [web_app_open_invoice]
    request carrying the slug and returns a pending promise.  Whatever
    follows, events delivered by the host and further calls of [openInvoice],
    the promise is fulfilled by the first [invoice_closed] event whose slug
    field equals that slug, with the status of that event, and stays pending
    as long as there is none: events with another slug or another name are
    ignored. *)
Theorem openInvoice_settles_on_own_slug (url f : string) (u : URL)
    (g slug : string) (w : World) :
  fresh w ->
  formatURL url = Ok f ->
  URL_new f = Ok u ->
  hostname u = "t.me" ->
  (g = "$" \/ g = "invoice/") ->
  pathname u = "/" +:+ g +:+ slug ->
  slug_ok slug = true ->
  exists p w1,
    openInvoice url w = (Ok p, w1)
    /\ w_trace w1
       = w_trace w ++ [PostEvent "web_app_open_invoice" (Some [("slug", JStr slug)])]
    /\ poll w1 p = Pending
    /\ forall acts,
         poll (run_actions acts w1) p
         = match first_close slug acts with
           | Some status => Fulfilled status
           | None => Pending
           end.
Proof.
  intros Hfresh Hf Hu Hhost Hg Hpath Hok.
  assert (match_invoice (pathname u) = Some (g, slug)) as Hm
    by (apply match_invoice_iff; auto).
  apply String.eqb_eq in Hhost.
  assert (openInvoice url w
          = (Ok (PThen (w_next w) (fun result => prop result "status")),
             snd (request "web_app_open_invoice" [("slug", JStr slug)]
                    "invoice_closed" (capture_slug slug) w))) as Hrun.
  { unfold openInvoice. run. rewrite Hf, Hu, Hhost, Hm. reflexivity. }
  eexists _, _. split; [exact Hrun|].
  assert (waits (snd (request "web_app_open_invoice" [("slug", JStr slug)]
                        "invoice_closed" (capture_slug slug) w))
            (w_next w) slug) as Hw.
  { split; [now apply fresh_request|]. cbn.
    destruct Hfresh as [Hl Hs].
    split; [lia|]. split; [|split].
    - destruct (w_settled w !! w_next w) as [v|] eqn:Hv; [|reflexivity].
      specialize (Hs _ _ Hv). lia.
    - eexists. split; [apply in_or_app; right; left; reflexivity | reflexivity].
    - intros l Hin Hlr. apply in_app_or in Hin as [Hin | [<- | []]].
      + specialize (Hl l Hin). lia.
      + cbn. auto. }
  split; [reflexivity|]. split.
  - apply (waits_run [] _ _ _ Hw).
  - intros acts. now apply waits_run.
Qed.

End Invoices.

Lemma fresh_w0 : fresh Sample.w0.
Proof.
  split.
  - intros l [].
  - intros r v Hr. cbn in Hr. rewrite lookup_empty in Hr. discriminate.
Qed.

(** An invoice opened for [abc]: the event closing [xyz] is ignored, the one
    closing [abc] fulfils the promise with its status. *)
Lemma openInvoice_settles_on_own_slug_witness :
  exists p w1,
    @openInvoice Sample.host "https://t.me/invoice/abc" Sample.w0 = (Ok p, w1)
    /\ w_trace w1 = [PostEvent "web_app_open_invoice" (Some [("slug", JStr "abc")])]
    /\ poll (@run_actions Sample.host
               [Incoming "invoice_closed" [("slug", JStr "xyz"); ("status", JStr "paid")]]
               w1) p = Pending
    /\ poll (@run_actions Sample.host
               [Incoming "invoice_closed" [("slug", JStr "xyz"); ("status", JStr "paid")];
                Incoming "invoice_closed" [("slug", JStr "abc"); ("status", JStr "cancelled")]]
               w1) p = Fulfilled (JStr "cancelled").
Proof.
  destruct (@openInvoice_settles_on_own_slug Sample.host
              "https://t.me/invoice/abc" "https://t.me/invoice/abc"
              {| hostname := "t.me"; pathname := "/invoice/abc"; search := EmptyString |}
              "invoice/" "abc" Sample.w0 fresh_w0 eq_refl eq_refl eq_refl
              (or_intror eq_refl) eq_refl eq_refl)
    as (p & w1 & Hrun & Htrace & _ & Hacts).
  exists p, w1. split; [exact Hrun|]. split; [exact Htrace|]. split.
  - exact (Hacts [Incoming "invoice_closed"
                    [("slug", JStr "xyz"); ("status", JStr "paid")]]).
  - exact (Hacts [Incoming "invoice_closed"
                    [("slug", JStr "xyz"); ("status", JStr "paid")];
                  Incoming "invoice_closed"
                    [("slug", JStr "abc"); ("status", JStr "cancelled")]]).
Defined.

(** Two invoices opened one after the other, then the second one closed: the
    first promise is still pending, the second is fulfilled. *)
Example concurrent_invoices :
  let '(p1, w1) := @openInvoice Sample.host "https://t.me/invoice/first" Sample.w0 in
  let '(p2, w2) := @openInvoice Sample.host "https://t.me/$second" w1 in
  let w3 := deliver "invoice_closed"
              [("slug", JStr "second"); ("status", JStr "paid")] w2 in
  match p1, p2 with
  | Ok q1, Ok q2 => poll w3 q1 = Pending /\ poll w3 q2 = Fulfilled (JStr "paid")
  | _, _ => False
  end.
Proof. vm_compute. split; reflexivity. Qed.

(** *** Telegram links *)

Section TelegramLinks.
Context `{Imports}.
Variable this : WebApp.

(** X1.  On a URL of host [t.me], [openTelegramLink] returns normally after
    exactly one effect: the bridge call [web_app_open_tg_link] with the
    pathname and the search of the formatted URL when the event is supported,
    and otherwise the assignment of the URL as it was passed, unformatted, to
    [window.location.href], with no bridge call. *)
Theorem openTelegramLink_opens (url : string) (u : URL) (w : World) :
  telegram_link url u ->
  exists w', openTelegramLink this url w = (Ok tt, w')
    /\ traced w
         [if supports "web_app_open_tg_link" (version this)
          then PostEvent "web_app_open_tg_link"
                 (Some [("path_full", JStr (pathname u +:+ search u))])
          else LocationHref url] w'.
Proof.
  intros (f & Hf & Hu & Hhost). apply String.eqb_eq in Hhost.
  unfold openTelegramLink. run. rewrite Hf, Hu, Hhost. cbn [negb]. unfold version.
  destruct (supports "web_app_open_tg_link" (currentVersion this)); cbn [negb];
    eexists; (split; [reflexivity | repeat split]).
Qed.

(** X2.  When [openTelegramLink] throws it has done nothing, and the exception
    is the one of [formatURL], the one of [new URL], or the hostname error for
    a host other than [t.me]. *)
Theorem openTelegramLink_throws (url : string) (e : exn) (w w' : World) :
  openTelegramLink this url w = (Throw e, w') ->
  w' = w
  /\ (formatURL url = Throw e
      \/ exists f, formatURL url = Ok f
           /\ (URL_new f = Throw e
               \/ exists u, URL_new f = Ok u
                    /\ hostname u <> "t.me"
                    /\ e = bad_hostname_telegram (hostname u))).
Proof.
  unfold openTelegramLink. run.
  destruct (formatURL url) as [f|e1] eqn:Hf.
  - destruct (URL_new f) as [u|e2] eqn:Hu.
    + destruct (String.eqb (hostname u) "t.me") eqn:Hhost; cbn [negb].
      * destruct (negb (supports "web_app_open_tg_link" (version this)));
          intros [=].
      * intros [= <- <-]. apply String.eqb_neq in Hhost.
        split; [reflexivity|]. right. exists f. split; [reflexivity|].
        right. exists u. auto.
    + intros [= <- <-]. split; [reflexivity|]. right. exists f. auto.
  - intros [= <- <-]. auto.
Qed.

End TelegramLinks.

Lemma openTelegramLink_opens_witness :
  exists w',
    @openTelegramLink Sample.host Sample.app_6_0 "https://t.me/share?url=x" Sample.w0
    = (Ok tt, w')
    /\ traced Sample.w0 [LocationHref "https://t.me/share?url=x"] w'.
Proof.
  refine (@openTelegramLink_opens Sample.host Sample.app_6_0
            "https://t.me/share?url=x"
            {| hostname := "t.me"; pathname := "/share"; search := "?url=x" |}
            Sample.w0 _).
  exists "https://t.me/share?url=x". repeat split; reflexivity.
Defined.

Lemma openTelegramLink_throws_witness :
  Sample.w0 = Sample.w0
  /\ (@formatURL Sample.host "ftp://t.me/x" = Throw (Error "URL protocol is not supported")
      \/ exists f, @formatURL Sample.host "ftp://t.me/x" = Ok f
           /\ (@URL_new Sample.host f = Throw (Error "URL protocol is not supported")
               \/ exists u, @URL_new Sample.host f = Ok u
                    /\ hostname u <> "t.me"
                    /\ Error "URL protocol is not supported"
                       = bad_hostname_telegram (hostname u))).
Proof.
  exact (@openTelegramLink_throws Sample.host Sample.app_6_0 "ftp://t.me/x"
           (Error "URL protocol is not supported") Sample.w0 Sample.w0 eq_refl).
Defined.

(** *** Which URLs [openInvoice] accepts *)

Section InvoiceAcceptance.
Context `{Imports}.

Lemma accepts_match (url slug : string) :
  accepts url slug
  <-> exists f u g, formatURL url = Ok f /\ URL_new f = Ok u
        /\ hostname u = "t.me" /\ match_invoice (pathname u) = Some (g, slug).
Proof.
  split.
  - intros (f & u & g & Hf & Hu & Hhost & Hg & Hpath & Hok).
    exists f, u, g. split; [exact Hf|]. split; [exact Hu|]. split; [exact Hhost|].
    apply match_invoice_iff. auto.
  - intros (f & u & g & Hf & Hu & Hhost & Hm).
    apply match_invoice_iff in Hm as (Hg & Hpath & Hok).
    exists f, u, g. repeat (split; [assumption|]). assumption.
Qed.

Lemma openInvoice_accepted (url slug : string) (w : World) :
  accepts url slug ->
  openInvoice url w
  = (Ok (PThen (w_next w) (fun result => prop result "status")),
     snd (request "web_app_open_invoice" [("slug", JStr slug)]
            "invoice_closed" (capture_slug slug) w)).
Proof.
  intros Ha. apply accepts_match in Ha as (f & u & g & Hf & Hu & Hhost & Hm).
  apply String.eqb_eq in Hhost.
  unfold openInvoice. run. rewrite Hf, Hu, Hhost, Hm. reflexivity.
Qed.

(** X3.  [openInvoice] issues its request exactly for the URLs whose formatted
    form has host [t.me] and a pathname [/$slug] or [/invoice/slug] with a
    slug of one character or more among letters, digits, [-], [_] and [=];
    the slug is determined by the URL.  For every other URL the returned
    promise is rejected and the world is left as it was. *)
Theorem openInvoice_accepts_exactly (url : string) (w : World) :
  (forall slug, accepts url slug ->
     exists w', openInvoice url w
                = (Ok (PThen (w_next w) (fun result => prop result "status")), w')
       /\ w_trace w'
          = w_trace w ++ [PostEvent "web_app_open_invoice" (Some [("slug", JStr slug)])])
  /\ (forall slug slug', accepts url slug -> accepts url slug' -> slug = slug')
  /\ ((forall slug, ~ accepts url slug) ->
      exists e, openInvoice url w = (Ok (PRejected e), w)).
Proof.
  split; [|split].
  - intros slug Ha. eexists.
    split; [exact (openInvoice_accepted url slug w Ha) | reflexivity].
  - intros slug slug' Ha Ha'.
    apply accepts_match in Ha as (f & u & g & Hf & Hu & _ & Hm).
    apply accepts_match in Ha' as (f' & u' & g' & Hf' & Hu' & _ & Hm').
    congruence.
  - intros Hno. unfold openInvoice. run.
    destruct (formatURL url) as [f|e] eqn:Hf; [|eauto].
    destruct (URL_new f) as [u|e] eqn:Hu; [|eauto].
    destruct (String.eqb (hostname u) "t.me") eqn:Hhost; cbn [negb]; [|eauto].
    destruct (match_invoice (pathname u)) as [[g slug]|] eqn:Hm; [|eauto].
    exfalso. apply (Hno slug). apply accepts_match.
    apply String.eqb_eq in Hhost. exists f, u, g. auto.
Qed.

End InvoiceAcceptance.

(** *** Requests under deliveries *)

Lemma fresh_request_opt (method : string) (params : option jsobj)
    (event : string) (capture : jsobj -> bool) (w : World) :
  fresh w -> fresh (snd (request_opt method params event capture w)).
Proof.
  intros [Hl Hs]. split; cbn.
  - intros l Hin. apply in_app_or in Hin as [Hin | [<- | []]].
    + specialize (Hl l Hin). lia.
    + cbn. lia.
  - intros r v Hr. specialize (Hs r v Hr). lia.
Qed.

Lemma awaiting_new (method : string) (params : option jsobj)
    (event : string) (capture : jsobj -> bool) (w : World) :
  fresh w ->
  awaiting (snd (request_opt method params event capture w)) (w_next w)
    event capture.
Proof.
  intros Hfresh. split; [now apply fresh_request_opt|]. cbn.
  destruct Hfresh as [Hl Hs].
  split; [lia|]. split; [|split].
  - destruct (w_settled w !! w_next w) as [v|] eqn:Hv; [|reflexivity].
    specialize (Hs _ _ Hv). lia.
  - eexists. split; [apply in_or_app; right; left; reflexivity | reflexivity].
  - intros l Hin Hlr. apply in_app_or in Hin as [Hin | [<- | []]].
    + specialize (Hl l Hin). lia.
    + cbn. auto.
Qed.

Lemma awaiting_other (method : string) (params : option jsobj)
    (event' : string) (capture' : jsobj -> bool) (w : World)
    (r : nat) (event : string) (capture : jsobj -> bool) :
  awaiting w r event capture ->
  awaiting (snd (request_opt method params event' capture' w)) r event capture.
Proof.
  intros (Hf & Hr & Hnone & (l0 & Hin0 & Hl0) & Hall).
  split; [now apply fresh_request_opt|]. cbn.
  split; [lia|]. split; [exact Hnone|]. split.
  - exists l0. split; [apply in_or_app; now left | exact Hl0].
  - intros l Hin Hlr. apply in_app_or in Hin as [Hin | [<- | []]].
    + now apply Hall.
    + cbn in Hlr. lia.
Qed.

Lemma awaiting_miss (w : World) (r : nat) (event : string)
    (capture : jsobj -> bool) (name : string) (payload : jsobj) :
  awaiting w r event capture ->
  String.eqb name event && capture payload = false ->
  awaiting (deliver name payload w) r event capture.
Proof.
  intros (Hf & Hr & Hnone & (l0 & Hin0 & Hl0) & Hall) Hb.
  assert (forall l, In l (w_listeners w) -> l_request l = r ->
            claims name payload l = false) as Hnot.
  { intros l Hin Hlr. destruct (Hall l Hin Hlr) as [Hev Hcap].
    unfold claims. rewrite Hev, Hcap, String.eqb_sym. exact Hb. }
  split; [now apply fresh_deliver|].
  cbn [deliver w_listeners w_settled w_next].
  split; [exact Hr|]. split; [|split].
  - rewrite settle_all_lookup.
    destruct (existsb _ _) eqn:Hex; [|exact Hnone].
    apply existsb_exists in Hex as (l & Hin & Hlr).
    apply Nat.eqb_eq in Hlr.
    apply List.filter_In in Hin as [Hin Hcl].
    rewrite (Hnot l Hin Hlr) in Hcl. discriminate.
  - exists l0. split; [|exact Hl0].
    apply List.filter_In. split; [exact Hin0|].
    now rewrite (Hnot l0 Hin0 Hl0).
  - intros l Hin. apply List.filter_In in Hin as [Hin _]. now apply Hall.
Qed.

Lemma awaiting_hit (w : World) (r : nat) (event : string)
    (capture : jsobj -> bool) (name : string) (payload : jsobj) :
  awaiting w r event capture ->
  String.eqb name event && capture payload = true ->
  settled_with (deliver name payload w) r (JObj payload).
Proof.
  intros (Hf & Hr & Hnone & (l0 & Hin0 & Hl0) & Hall) Hb.
  assert (forall l, In l (w_listeners w) -> l_request l = r ->
            claims name payload l = true) as Hyes.
  { intros l Hin Hlr. destruct (Hall l Hin Hlr) as [Hev Hcap].
    unfold claims. rewrite Hev, Hcap, String.eqb_sym. exact Hb. }
  split; [now apply fresh_deliver|].
  cbn [deliver w_listeners w_settled w_next].
  split; [exact Hr|]. split.
  - rewrite settle_all_lookup.
    assert (existsb (fun l => (l_request l =? r)%nat)
              (List.filter (claims name payload) (w_listeners w)) = true) as ->.
    { apply existsb_exists. exists l0. split.
      - apply List.filter_In. split; [exact Hin0 | now apply Hyes].
      - now apply Nat.eqb_eq. }
    reflexivity.
  - intros l Hin Hlr. apply List.filter_In in Hin as [Hin Hcl].
    rewrite (Hyes l Hin Hlr) in Hcl. discriminate.
Qed.

Lemma settled_deliver (w : World) (r : nat) (v : jsval) (name : string)
    (payload : jsobj) :
  settled_with w r v -> settled_with (deliver name payload w) r v.
Proof.
  intros (Hf & Hr & Hsome & Hno).
  split; [now apply fresh_deliver|].
  cbn [deliver w_listeners w_settled w_next].
  split; [exact Hr|]. split.
  - rewrite settle_all_lookup.
    destruct (existsb _ _) eqn:Hex; [|exact Hsome].
    apply existsb_exists in Hex as (l & Hin & Hlr).
    apply Nat.eqb_eq in Hlr.
    apply List.filter_In in Hin as [Hin _].
    now destruct (Hno l Hin).
  - intros l Hin. apply List.filter_In in Hin as [Hin _]. now apply Hno.
Qed.

Lemma settled_deliveries (events : list (string * jsobj)) :
  forall (w : World) (r : nat) (v : jsval),
  settled_with w r v -> w_settled (deliveries events w) !! r = Some v.
Proof.
  induction events as [|[name payload] events IH]; intros w r v Hs.
  - apply Hs.
  - cbn [deliveries fold_left fst snd]. apply (IH (deliver name payload w)).
    now apply settled_deliver.
Qed.

(** A waiting request is settled by the first event that its listener claims,
    with the payload of that event, and by nothing else. *)
Lemma awaiting_deliveries (events : list (string * jsobj)) :
  forall (w : World) (r : nat) (event : string) (capture : jsobj -> bool),
  awaiting w r event capture ->
  w_settled (deliveries events w) !! r
  = JObj <$> first_claimed event capture events.
Proof.
  induction events as [|[name payload] events IH]; intros w r event capture Hw.
  - cbn. apply Hw.
  - cbn [deliveries fold_left fst snd first_claimed].
    destruct (String.eqb name event && capture payload) eqn:Hb.
    + apply (settled_deliveries events (deliver name payload w)).
      now apply (awaiting_hit w r event capture).
    + apply (IH (deliver name payload w)). now apply awaiting_miss.
Qed.

Lemma first_claimed_ext (event : string) (c c' : jsobj -> bool)
    (events : list (string * jsobj)) :
  (forall payload, c payload = c' payload) ->
  first_claimed event c events = first_claimed event c' events.
Proof.
  intros Hext. induction events as [|[name payload] events IH]; [reflexivity|].
  cbn [first_claimed]. now rewrite Hext, IH.
Qed.

Lemma readTextFromClipboard_run (req_id : string) (w : World) :
  readTextFromClipboard req_id w
  = (Ok (PThen (w_next w) data_or_null),
     snd (request_opt "web_app_read_text_from_clipboard"
            (Some [("req_id", JStr req_id)]) "clipboard_text_received"
            (default_capture (Some [("req_id", JStr req_id)])) w)).
Proof. reflexivity. Qed.

Lemma requestPhoneAccess_run (w : World) :
  requestPhoneAccess w
  = (Ok (PThen (w_next w) (fun result => prop result "status")),
     snd (request_opt "web_app_request_phone" None "phone_requested"
            (default_capture None) w)).
Proof. reflexivity. Qed.

Lemma requestWriteAccess_run (w : World) :
  requestWriteAccess w
  = (Ok (PThen (w_next w) (fun result => prop result "status")),
     snd (request_opt "web_app_request_write_access" None
            "write_access_requested" (default_capture None) w)).
Proof. reflexivity. Qed.

(** X7.  [readTextFromClipboard] issues one
    [web_app_read_text_from_clipboard] call carrying the request id and
    returns a pending promise.  Over any run of events from the host the
    promise is fulfilled by the first [clipboard_text_received] event that
    carries the same [req_id], with the [data] of that event, or with [null]
    when the event has no [data]; events with another id are ignored. *)
Theorem readTextFromClipboard_settles (req_id : string) (w : World) :
  fresh w ->
  exists p w1,
    readTextFromClipboard req_id w = (Ok p, w1)
    /\ w_trace w1
       = w_trace w ++ [PostEvent "web_app_read_text_from_clipboard"
                         (Some [("req_id", JStr req_id)])]
    /\ forall events,
         poll (deliveries events w1) p
         = match first_claimed "clipboard_text_received"
                   (fun payload => str_strict_eq req_id (field "req_id" payload))
                   events with
           | Some payload =>
               Fulfilled (match field "data" payload with
                          | JUndefined => JNull
                          | data => data
                          end)
           | None => Pending
           end.
Proof.
  intros Hfresh. eexists _, _.
  split; [apply readTextFromClipboard_run|]. split; [reflexivity|].
  intros events. cbn [poll].
  rewrite (awaiting_deliveries events _ _ _ _ (awaiting_new _ _ _ _ w Hfresh)).
  rewrite (first_claimed_ext _ _
             (fun payload => str_strict_eq req_id (field "req_id" payload)))
    by reflexivity.
  destruct (first_claimed _ _ events) as [payload|]; reflexivity.
Qed.

(** X8.  [requestPhoneAccess] and [requestWriteAccess] issue their bridge
    call without parameters; the promise of the first is fulfilled by the
    first [phone_requested] event, the promise of the second by the first
    [write_access_requested] event, whatever the payload, with its [status];
    events of any other name leave it pending. *)
Theorem access_requests_settle (w : World) :
  fresh w ->
  (exists p w1,
     requestPhoneAccess w = (Ok p, w1)
     /\ w_trace w1 = w_trace w ++ [PostEvent "web_app_request_phone" None]
     /\ forall events,
          poll (deliveries events w1) p
          = match first_claimed "phone_requested" (fun _ => true) events with
            | Some payload => Fulfilled (field "status" payload)
            | None => Pending
            end)
  /\ (exists p w1,
     requestWriteAccess w = (Ok p, w1)
     /\ w_trace w1 = w_trace w ++ [PostEvent "web_app_request_write_access" None]
     /\ forall events,
          poll (deliveries events w1) p
          = match first_claimed "write_access_requested" (fun _ => true) events with
            | Some payload => Fulfilled (field "status" payload)
            | None => Pending
            end).
Proof.
  intros Hfresh. split.
  - eexists _, _. split; [apply requestPhoneAccess_run|]. split; [reflexivity|].
    intros events. cbn [poll].
    rewrite (awaiting_deliveries events _ _ _ _ (awaiting_new _ _ _ _ w Hfresh)).
    rewrite (first_claimed_ext _ _ (fun _ => true)) by reflexivity.
    destruct (first_claimed _ _ events) as [payload|]; reflexivity.
  - eexists _, _. split; [apply requestWriteAccess_run|]. split; [reflexivity|].
    intros events. cbn [poll].
    rewrite (awaiting_deliveries events _ _ _ _ (awaiting_new _ _ _ _ w Hfresh)).
    rewrite (first_claimed_ext _ _ (fun _ => true)) by reflexivity.
    destruct (first_claimed _ _ events) as [payload|]; reflexivity.
Qed.

Lemma readTextFromClipboard_settles_witness :
  exists p w1,
    readTextFromClipboard "r1" Sample.w0 = (Ok p, w1)
    /\ poll (deliveries
               [("clipboard_text_received", [("req_id", JStr "r0"); ("data", JStr "no")]);
                ("clipboard_text_received", [("req_id", JStr "r1")])] w1) p
       = Fulfilled JNull.
Proof.
  destruct (readTextFromClipboard_settles "r1" Sample.w0 fresh_w0)
    as (p & w1 & Hrun & _ & Hevents).
  exists p, w1. split; [exact Hrun|].
  exact (Hevents
           [("clipboard_text_received", [("req_id", JStr "r0"); ("data", JStr "no")]);
            ("clipboard_text_received", [("req_id", JStr "r1")])]).
Defined.

Lemma access_requests_settle_witness :
  exists p w1,
    requestPhoneAccess Sample.w0 = (Ok p, w1)
    /\ poll (deliveries
               [("write_access_requested", [("status", JStr "allowed")]);
                ("phone_requested", [("status", JStr "sent")])] w1) p
       = Fulfilled (JStr "sent").
Proof.
  destruct (proj1 (access_requests_settle Sample.w0 fresh_w0))
    as (p & w1 & Hrun & _ & Hevents).
  exists p, w1. split; [exact Hrun|].
  exact (Hevents
           [("write_access_requested", [("status", JStr "allowed")]);
            ("phone_requested", [("status", JStr "sent")])]).
Defined.

Section SameSlug.
Context `{Imports}.

(** X4.  The capture of [openInvoice] looks at the slug only: two pending
    calls for the same slug, whichever of the two path forms each URL has,
    are both fulfilled by one [invoice_closed] event of that slug, each with
    the status of that event. *)
Theorem openInvoice_same_slug (url1 url2 slug : string) (payload : jsobj)
    (w : World) :
  fresh w ->
  accepts url1 slug ->
  accepts url2 slug ->
  field "slug" payload = JStr slug ->
  exists p1 w1 p2 w2,
    openInvoice url1 w = (Ok p1, w1)
    /\ openInvoice url2 w1 = (Ok p2, w2)
    /\ poll w2 p1 = Pending
    /\ poll w2 p2 = Pending
    /\ poll (deliver "invoice_closed" payload w2) p1
       = Fulfilled (field "status" payload)
    /\ poll (deliver "invoice_closed" payload w2) p2
       = Fulfilled (field "status" payload).
Proof.
  intros Hfresh Ha1 Ha2 Hslug.
  pose proof (openInvoice_accepted url1 slug w Ha1) as Hrun1.
  set (w1 := snd (request "web_app_open_invoice" [("slug", JStr slug)]
                    "invoice_closed" (capture_slug slug) w)) in *.
  pose proof (openInvoice_accepted url2 slug w1 Ha2) as Hrun2.
  set (w2 := snd (request "web_app_open_invoice" [("slug", JStr slug)]
                    "invoice_closed" (capture_slug slug) w1)) in *.
  assert (awaiting w1 (w_next w) "invoice_closed" (capture_slug slug)) as Hw1
    by exact (awaiting_new _ (Some _) _ _ w Hfresh).
  assert (awaiting w2 (w_next w) "invoice_closed" (capture_slug slug)) as Hw12
    by exact (awaiting_other _ (Some _) _ _ w1 _ _ _ Hw1).
  assert (awaiting w2 (w_next w1) "invoice_closed" (capture_slug slug)) as Hw2
    by exact (awaiting_new _ (Some _) _ _ w1 (proj1 Hw1)).
  assert (capture_slug slug payload = true) as Hcap.
  { unfold capture_slug. rewrite Hslug. cbn. apply String.eqb_refl. }
  exists (PThen (w_next w) (fun result => prop result "status")), w1,
         (PThen (w_next w1) (fun result => prop result "status")), w2.
  split; [exact Hrun1|]. split; [exact Hrun2|].
  cbn [poll]. split; [|split; [|split]].
  - now rewrite (proj1 (proj2 (proj2 Hw12))).
  - now rewrite (proj1 (proj2 (proj2 Hw2))).
  - change (deliver "invoice_closed" payload w2)
      with (deliveries [("invoice_closed", payload)] w2).
    rewrite (awaiting_deliveries _ _ _ _ _ Hw12).
    cbn [first_claimed]. rewrite Hcap. reflexivity.
  - change (deliver "invoice_closed" payload w2)
      with (deliveries [("invoice_closed", payload)] w2).
    rewrite (awaiting_deliveries _ _ _ _ _ Hw2).
    cbn [first_claimed]. rewrite Hcap. reflexivity.
Qed.

End SameSlug.

Lemma accepts_sample_invoice :
  @accepts Sample.host "https://t.me/invoice/abc" "abc"
  /\ @accepts Sample.host "https://t.me/$abc" "abc".
Proof.
  split.
  - exists "https://t.me/invoice/abc",
      {| hostname := "t.me"; pathname := "/invoice/abc"; search := EmptyString |},
      "invoice/".
    repeat split; auto.
  - exists "https://t.me/$abc",
      {| hostname := "t.me"; pathname := "/$abc"; search := EmptyString |},
      "$".
    repeat split; auto.
Qed.

Lemma openInvoice_same_slug_witness :
  exists p1 w1 p2 w2,
    @openInvoice Sample.host "https://t.me/invoice/abc" Sample.w0 = (Ok p1, w1)
    /\ @openInvoice Sample.host "https://t.me/$abc" w1 = (Ok p2, w2)
    /\ poll (deliver "invoice_closed"
               [("slug", JStr "abc"); ("status", JStr "paid")] w2) p1
       = Fulfilled (JStr "paid")
    /\ poll (deliver "invoice_closed"
               [("slug", JStr "abc"); ("status", JStr "paid")] w2) p2
       = Fulfilled (JStr "paid").
Proof.
  destruct (@openInvoice_same_slug Sample.host
              "https://t.me/invoice/abc" "https://t.me/$abc" "abc"
              [("slug", JStr "abc"); ("status", JStr "paid")] Sample.w0
              fresh_w0 (proj1 accepts_sample_invoice)
              (proj2 accepts_sample_invoice) eq_refl)
    as (p1 & w1 & p2 & w2 & H1 & H2 & _ & _ & H3 & H4).
  exists p1, w1, p2, w2. auto.
Defined.

(** *** Colour mutators in sequence *)

Section Colours.
Context `{Imports}.

Lemma mutate_run (m : Mutation) (w : World) :
  exists w', mutate m w = (Ok tt, w')
    /\ w_trace w' = w_trace w ++ effects_of m
    /\ w_state w' = apply_mutation (w_state w) m.
Proof.
  destruct m as [color | color]; cbn [mutate effects_of apply_mutation].
  - destruct (setHeaderColor_run color w) as (w' & Hrun & Htrace & Hstate & _).
    exists w'. auto.
  - destruct (setBackgroundColor_run color w) as (w' & Hrun & Htrace & Hstate & _).
    exists w'. auto.
Qed.

Lemma last_header_mutation (m : Mutation) (s : WebAppState) :
  headerColor (apply_mutation s m) = last_header [m] (headerColor s).
Proof. destruct m; reflexivity. Qed.

Lemma last_background_mutation (m : Mutation) (s : WebAppState) :
  backgroundColor (apply_mutation s m) = last_background [m] (backgroundColor s).
Proof. destruct m; reflexivity. Qed.

Lemma mutations_background (ms : list Mutation) : forall w : World,
  exists w', mutations ms w = (Ok tt, w')
    /\ backgroundColor (w_state w')
       = last_background ms (backgroundColor (w_state w)).
Proof.
  induction ms as [|m ms IH]; intros w.
  - exists w. auto.
  - destruct (mutate_run m w) as (w1 & Hrun1 & _ & Hstate1).
    destruct (IH w1) as (w' & Hrun & Hbackground).
    exists w'. cbn [mutations]. run. rewrite Hrun1.
    split; [exact Hrun|].
    rewrite Hbackground, Hstate1, last_background_mutation. reflexivity.
Qed.

(** X5.  A run of [setHeaderColor] and [setBackgroundColor] calls never
    fails; every call adds its bridge call, followed by its state write and
    change event, to the trace, in call order; afterwards each of the two
    fields holds the colour last given to it, or its initial colour when no
    call set it. *)
Theorem color_mutations_compose (ms : list Mutation) : forall w : World,
  exists w', mutations ms w = (Ok tt, w')
    /\ w_trace w' = w_trace w ++ flat_map effects_of ms
    /\ headerColor (w_state w') = last_header ms (headerColor (w_state w))
    /\ backgroundColor (w_state w')
       = last_background ms (backgroundColor (w_state w)).
Proof.
  induction ms as [|m ms IH]; intros w.
  - exists w. cbn. rewrite app_nil_r. auto.
  - destruct (mutate_run m w) as (w1 & Hrun1 & Htrace1 & Hstate1).
    destruct (IH w1) as (w' & Hrun & Htrace & Hheader & Hbackground).
    exists w'. cbn [mutations]. run. rewrite Hrun1.
    split; [exact Hrun|]. split; [|split].
    + rewrite Htrace, Htrace1. cbn [flat_map]. now rewrite app_assoc.
    + rewrite Hheader, Hstate1, last_header_mutation. reflexivity.
    + rewrite Hbackground, Hstate1, last_background_mutation. reflexivity.
Qed.

Variable isColorDark : string -> bool.

(** X6.  Reading [colorScheme] has no effect, and after any run of colour
    mutator calls it is [dark] exactly when [isColorDark] holds of the
    background colour last set (of the initial one when none was set): calls
    of [setHeaderColor] never change it. *)
Theorem colorScheme_follows_background (ms : list Mutation) (w : World) :
  exists w', mutations ms w = (Ok tt, w')
    /\ colorScheme isColorDark w'
       = (Ok (if isColorDark (last_background ms (backgroundColor (w_state w)))
              then "dark" else "light"), w').
Proof.
  destruct (mutations_background ms w) as (w' & Hrun & Hbackground).
  exists w'. split; [exact Hrun|].
  unfold colorScheme, get_backgroundColor. run. now rewrite Hbackground.
Qed.

End Colours.

End WebAppFacts.

(** ** Properties of the navigator initialisation *)

Module NavigationFacts.
Import Navigation.

Ltac run :=
  unfold mbind, Eff_bind, mret, Eff_ret, lift, throw, try_catch,
    isPageReload, getItem, get_location, console_error;
  cbn [fst snd].

Section WithImports.
Context `{Imports}.

Lemma instantiate_restore (key : string) (options : jsval) (w : World)
    (raw : string) (fields : jsobj) :
  page_reload w = true ->
  sessionStorage w !! key = Some raw ->
  truthy raw = true ->
  JSON_parse raw = Ok (JObj fields) ->
  nav_rejects (field "history" fields) (field "index" fields) options = None ->
  instantiate key options w
  = (Ok (next_ref w),
     allocated (restored (field "history" fields) (field "index" fields) options) w).
Proof.
  intros Hreload Hraw Htruthy Hparse Haccept.
  unfold instantiate, BrowserNavigator_new. run.
  rewrite Hreload, Hraw, Htruthy, Hparse. cbn [destructure prop].
  rewrite Haccept. reflexivity.
Qed.

(** Every way of not restoring ends in the navigator derived from the
    location; only the console may have been written in between. *)
Lemma instantiate_fallback (key : string) (options : jsval) (w : World) :
  (sessionStorage w !! key = None
   \/ exists raw e, sessionStorage w !! key = Some raw /\ JSON_parse raw = Throw e) ->
  exists w', instantiate key options w = (Ok (next_ref w), allocated (derived w options) w')
    /\ sessionStorage w' = sessionStorage w /\ writes w' = writes w
    /\ heap w' = heap w /\ next_ref w' = next_ref w /\ location w' = location w.
Proof.
  intros Hcase. unfold instantiate, createBrowserNavigatorFromLocation. run.
  destruct (page_reload w).
  - destruct Hcase as [Hnone | (raw & e & Hraw & Hparse)].
    + rewrite Hnone. exists w. repeat split.
    + rewrite Hraw. destruct (truthy raw).
      * rewrite Hparse. eexists. split; [reflexivity|]. repeat split.
      * exists w. repeat split.
  - exists w. repeat split.
Qed.

Lemma initNavigator_after (key : string) (options : jsval) (w w0 : World)
    (nav : nat) (n : Navigator) :
  instantiate key options w = (Ok nav, w0) ->
  heap w0 !! nav = Some n ->
  exists w1, initNavigator key options w = (Ok nav, w1)
    /\ heap w1 !! nav = Some (listening key nav n)
    /\ sessionStorage w1 !! key = Some (JSON_stringify (snapshot n))
    /\ writes w1 = writes w0 ++ [(key, JSON_stringify (snapshot n))].
Proof.
  intros Hinst Hn. unfold initNavigator. run. rewrite Hinst.
  unfold on, update, saveState. cbn [heap].
  rewrite lookup_alter_eq, Hn. cbn [fmap option_fmap option_map].
  unfold setItem. eexists. split; [reflexivity|]. cbn.
  rewrite lookup_alter_eq, Hn, lookup_insert_eq. repeat split.
Qed.

Lemma heap_allocated (n : Navigator) (w : World) :
  heap (allocated n w) !! next_ref w = Some n.
Proof. apply lookup_insert_eq. Qed.

(** C4.  On a page reload, when the value stored under the key parses as an
    object whose [history] and [index] the navigator accepts, [initNavigator]
    returns a navigator with exactly that index and that history, the location
    playing no part; when nothing is stored under the key or the stored text
    does not parse, it returns, without failing, the navigator derived from
    the current location: one entry, index 0. *)
Theorem initNavigator_restores_or_derives (key : string) (options : jsval)
    (w : World) :
  page_reload w = true ->
  (forall raw fields,
     sessionStorage w !! key = Some raw ->
     truthy raw = true ->
     JSON_parse raw = Ok (JObj fields) ->
     nav_rejects (field "history" fields) (field "index" fields) options = None ->
     exists nav w1 n,
       initNavigator key options w = (Ok nav, w1)
       /\ heap w1 !! nav = Some n
       /\ nav_index n = field "index" fields
       /\ nav_history n = field "history" fields)
  /\ ((sessionStorage w !! key = None
       \/ exists raw e, sessionStorage w !! key = Some raw
                        /\ JSON_parse raw = Throw e) ->
      exists nav w1 n,
        initNavigator key options w = (Ok nav, w1)
        /\ heap w1 !! nav = Some n
        /\ nav_index n = JNum 0
        /\ nav_history n = JArr [entry_of_location (location w) options]).
Proof.
  intros Hreload. split.
  - intros raw fields Hraw Htruthy Hparse Haccept.
    pose proof (instantiate_restore key options w raw fields
                  Hreload Hraw Htruthy Hparse Haccept) as Hinst.
    destruct (initNavigator_after key options w _ _ _ Hinst (heap_allocated _ w))
      as (w1 & Hrun & Hheap & _).
    eexists _, w1, _. split; [exact Hrun|]. split; [exact Hheap|]. split; reflexivity.
  - intros Hcase.
    destruct (instantiate_fallback key options w Hcase)
      as (w' & Hinst & _ & _ & _ & Hnext & Hloc).
    pose proof (heap_allocated (derived w options) w') as Hn.
    rewrite Hnext in Hn.
    destruct (initNavigator_after key options w _ _ _ Hinst Hn)
      as (w1 & Hrun & Hheap & _).
    eexists _, w1, _. split; [exact Hrun|]. split; [exact Hheap|]. split; reflexivity.
Qed.

(** *** Persistence *)

Lemma navigate_saves (key : string) (nav : nat) (n : Navigator)
    (history index : jsval) (w : World) :
  heap w !! nav = Some n ->
  saving key nav n ->
  exists w', navigate nav history index w = (Ok tt, w')
    /\ heap w' !! nav = Some (moved history index n)
    /\ sessionStorage w' !! key = Some (saved_text (history, index))
    /\ writes w' = writes w ++ [(key, saved_text (history, index))].
Proof.
  intros Hn Hsaving. unfold navigate, update, emit. run. cbn [heap].
  rewrite lookup_alter_eq, Hn. cbn [fmap option_fmap option_map nav_listeners].
  unfold saving in Hsaving. rewrite Hsaving.
  cbn [call_all call]. run. unfold saveState. cbn [heap].
  rewrite lookup_alter_eq, Hn. cbn [fmap option_fmap option_map].
  unfold setItem. eexists. split; [reflexivity|]. cbn.
  rewrite lookup_alter_eq, Hn, lookup_insert_eq. repeat split.
Qed.

Lemma last_cons {A : Type} (x d : A) (l : list A) :
  List.last (x :: l) d = List.last l x.
Proof.
  revert x d. induction l as [|y l IH]; intros x d; [reflexivity|].
  change (List.last (x :: y :: l) d) with (List.last (y :: l) d).
  now rewrite !IH.
Qed.

Lemma navigations_save (key : string) (nav : nat) (steps : list (jsval * jsval)) :
  forall (w : World) (n : Navigator),
  heap w !! nav = Some n ->
  saving key nav n ->
  sessionStorage w !! key = Some (JSON_stringify (snapshot n)) ->
  exists w' n',
    navigations nav steps w = (Ok tt, w')
    /\ heap w' !! nav = Some n'
    /\ (nav_history n', nav_index n')
       = List.last steps (nav_history n, nav_index n)
    /\ sessionStorage w' !! key = Some (JSON_stringify (snapshot n'))
    /\ writes w' = writes w ++ List.map (fun step => (key, saved_text step)) steps.
Proof.
  induction steps as [|[history index] steps IH]; intros w n Hn Hsaving Hstored.
  - exists w, n. cbn. rewrite app_nil_r. auto.
  - destruct (navigate_saves key nav n history index w Hn Hsaving)
      as (w1 & Hrun & Hn1 & Hstored1 & Hwrites1).
    destruct (IH w1 (moved history index n) Hn1 Hsaving Hstored1)
      as (w' & n' & Hrest & Hn' & Hlast & Hstored' & Hwrites').
    exists w', n'. cbn [navigations]. run. rewrite Hrun.
    split; [exact Hrest|]. split; [exact Hn'|]. split; [|split].
    + rewrite Hlast, last_cons. reflexivity.
    + exact Hstored'.
    + rewrite Hwrites', Hwrites1, <- app_assoc. reflexivity.
Qed.

Lemma instantiate_returns (key : string) (options : jsval) (w : World) :
  exists nav w0 n,
    instantiate key options w = (Ok nav, w0)
    /\ heap w0 !! nav = Some n
    /\ nav_listeners n = []
    /\ writes w0 = writes w.
Proof.
  unfold instantiate, createBrowserNavigatorFromLocation, BrowserNavigator_new. run.
  destruct (page_reload w);
    [destruct (sessionStorage w !! key) as [raw|]; [destruct (truthy raw)|]|].
  - destruct (JSON_parse raw) as [v|e]; cbn [fst snd].
    + destruct (destructure v) as [[index history]|e]; cbn [fst snd].
      * destruct (nav_rejects history index options) as [e|].
        -- cbn. eexists _, _, _. split; [reflexivity|].
           cbn. rewrite lookup_insert_eq. repeat split.
        -- cbn. eexists _, _, _. split; [reflexivity|].
           cbn. rewrite lookup_insert_eq. repeat split.
      * cbn. eexists _, _, _. split; [reflexivity|].
        cbn. rewrite lookup_insert_eq. repeat split.
    + cbn. eexists _, _, _. split; [reflexivity|].
      cbn. rewrite lookup_insert_eq. repeat split.
  - cbn. eexists _, _, _. split; [reflexivity|].
    cbn. rewrite lookup_insert_eq. repeat split.
  - cbn. eexists _, _, _. split; [reflexivity|].
    cbn. rewrite lookup_insert_eq. repeat split.
  - cbn. eexists _, _, _. split; [reflexivity|].
    cbn. rewrite lookup_insert_eq. repeat split.
Qed.

(** C9.  [initNavigator] always returns a navigator; during the call the
    snapshot of its state is written once to the session storage under the
    key; afterwards every navigation, which emits a change event, writes the
    snapshot of the new state under the key again, so that after any run of
    navigations the stored text is the snapshot of the navigator's state. *)
Theorem initNavigator_persists (key : string) (options : jsval) (w : World) :
  exists nav w1 n,
    initNavigator key options w = (Ok nav, w1)
    /\ heap w1 !! nav = Some n
    /\ sessionStorage w1 !! key = Some (JSON_stringify (snapshot n))
    /\ writes w1 = writes w ++ [(key, JSON_stringify (snapshot n))]
    /\ forall steps, exists w2 n2,
         navigations nav steps w1 = (Ok tt, w2)
         /\ heap w2 !! nav = Some n2
         /\ (nav_history n2, nav_index n2)
            = List.last steps (nav_history n, nav_index n)
         /\ sessionStorage w2 !! key = Some (JSON_stringify (snapshot n2))
         /\ writes w2
            = writes w1 ++ List.map (fun step => (key, saved_text step)) steps.
Proof.
  destruct (instantiate_returns key options w)
    as (nav & w0 & n0 & Hinst & Hn0 & Hnil & Hwrites0).
  destruct (initNavigator_after key options w w0 nav n0 Hinst Hn0)
    as (w1 & Hrun & Hheap & Hstored & Hwrites).
  exists nav, w1, (listening key nav n0).
  split; [exact Hrun|]. split; [exact Hheap|].
  split; [exact Hstored|]. split; [now rewrite Hwrites, Hwrites0|].
  intros steps.
  apply (navigations_save key nav steps w1 (listening key nav n0) Hheap);
    [|exact Hstored].
  unfold saving, listening. cbn [nav_listeners]. rewrite Hnil. reflexivity.
Qed.

End WithImports.

(** A reload over the stored snapshot [{index: 1, history: [a, b, c]}]
    reinstates it; a reload over a text that does not parse derives the
    navigator from the location. *)
Lemma initNavigator_restores_or_derives_witness :
  (exists nav w1 n,
     @initNavigator SampleNav.platform "nav" JUndefined
       (SampleNav.world (<["nav" := SampleNav.stored_text]> ∅)) = (Ok nav, w1)
     /\ heap w1 !! nav = Some n
     /\ nav_index n = JNum 1
     /\ nav_history n = SampleNav.abc)
  /\ (exists nav w1 n,
     @initNavigator SampleNav.platform "nav" JUndefined
       (SampleNav.world (<["nav" := "{oops"]> ∅)) = (Ok nav, w1)
     /\ heap w1 !! nav = Some n
     /\ nav_index n = JNum 0
     /\ nav_history n = JArr [JStr "/start"]).
Proof.
  split.
  - refine (proj1 (@initNavigator_restores_or_derives SampleNav.platform "nav"
                     JUndefined (SampleNav.world (<["nav" := SampleNav.stored_text]> ∅)) eq_refl)
              SampleNav.stored_text [("index", JNum 1); ("history", SampleNav.abc)] _ _ _ _).
    + apply lookup_insert_eq.
    + reflexivity.
    + reflexivity.
    + reflexivity.
  - refine (proj2 (@initNavigator_restores_or_derives SampleNav.platform "nav"
                     JUndefined (SampleNav.world (<["nav" := "{oops"]> ∅)) eq_refl) _).
    right. exists "{oops", (Exn "SyntaxError" "Unexpected token").
    split; [apply lookup_insert_eq | reflexivity].
Defined.

(** *** Fresh starts, failed restorations, reloads *)

Section MoreNavigation.
Context `{Imports}.

Lemma instantiate_fresh_start (key : string) (options : jsval) (w : World) :
  page_reload w = false ->
  instantiate key options w
  = (Ok (next_ref w), allocated (derived w options) w).
Proof.
  intros Hreload. unfold instantiate, createBrowserNavigatorFromLocation. run.
  rewrite Hreload. reflexivity.
Qed.

Lemma instantiate_recover (key : string) (options : jsval) (w : World)
    (raw : string) (e : exn) :
  page_reload w = true ->
  sessionStorage w !! key = Some raw ->
  truthy raw = true ->
  restore_fails raw options e ->
  instantiate key options w
  = (Ok (next_ref w),
     allocated (derived w options)
       (snd (console_error "Unable to restore hash navigator state." e w))).
Proof.
  intros Hreload Hraw Htruthy Hfail.
  set (target := (Ok (next_ref w), allocated (derived w options)
                    (snd (console_error "Unable to restore hash navigator state." e w)))).
  unfold instantiate, createBrowserNavigatorFromLocation, BrowserNavigator_new. run.
  rewrite Hreload, Hraw, Htruthy.
  destruct Hfail as [Hparse | (v & Hparse & [Hd | (index & history & Hd & Hrej)])];
    rewrite Hparse; cbn [fst snd]; [reflexivity| |]; rewrite Hd; cbn [fst snd];
    [reflexivity|].
  rewrite Hrej. reflexivity.
Qed.

(** [initNavigator] after [instantiate], with the console. *)
Lemma initNavigator_rest (key : string) (options : jsval) (w w0 : World)
    (nav : nat) (n : Navigator) :
  instantiate key options w = (Ok nav, w0) ->
  heap w0 !! nav = Some n ->
  exists w1, initNavigator key options w = (Ok nav, w1)
    /\ heap w1 !! nav = Some (listening key nav n)
    /\ sessionStorage w1 !! key = Some (JSON_stringify (snapshot n))
    /\ (forall key', key' <> key -> sessionStorage w1 !! key' = sessionStorage w0 !! key')
    /\ console w1 = console w0.
Proof.
  intros Hinst Hn. unfold initNavigator. run. rewrite Hinst.
  unfold on, update, saveState. cbn [heap].
  rewrite lookup_alter_eq, Hn. cbn [fmap option_fmap option_map].
  unfold setItem. eexists. split; [reflexivity|]. cbn.
  rewrite lookup_alter_eq, Hn, lookup_insert_eq. repeat split.
  intros key' Hne. now rewrite lookup_insert_ne.
Qed.

(** X9.  On a fresh start (no page reload) [initNavigator] does not read the
    session storage: it returns the navigator derived from the location, one
    entry and index 0, writes nothing to the console, and replaces whatever
    was stored under the key by the snapshot of that navigator. *)
Theorem initNavigator_fresh_start (key : string) (options : jsval) (w : World) :
  page_reload w = false ->
  exists nav w1 n,
    initNavigator key options w = (Ok nav, w1)
    /\ heap w1 !! nav = Some n
    /\ nav_index n = JNum 0
    /\ nav_history n = JArr [entry_of_location (location w) options]
    /\ sessionStorage w1 !! key = Some (JSON_stringify (snapshot n))
    /\ console w1 = console w.
Proof.
  intros Hreload.
  pose proof (instantiate_fresh_start key options w Hreload) as Hinst.
  destruct (initNavigator_rest key options w _ _ _ Hinst (heap_allocated _ w))
    as (w1 & Hrun & Hheap & Hstored & _ & Hconsole).
  eexists _, w1, _. split; [exact Hrun|]. split; [exact Hheap|].
  split; [reflexivity|]. split; [reflexivity|]. split; [exact Hstored|].
  exact Hconsole.
Qed.

(** X10.  On a page reload over a non-empty stored text whose restoration
    fails, at [JSON.parse], at the destructuring of [null], or in the
    constructor, [initNavigator] does not fail: it reports the exception once
    on the console, returns the navigator derived from the location, and
    replaces the stored text by the snapshot of that navigator. *)
Theorem initNavigator_recovers (key : string) (options : jsval) (w : World)
    (raw : string) (e : exn) :
  page_reload w = true ->
  sessionStorage w !! key = Some raw ->
  truthy raw = true ->
  restore_fails raw options e ->
  exists nav w1 n,
    initNavigator key options w = (Ok nav, w1)
    /\ heap w1 !! nav = Some n
    /\ nav_index n = JNum 0
    /\ nav_history n = JArr [entry_of_location (location w) options]
    /\ sessionStorage w1 !! key = Some (JSON_stringify (snapshot n))
    /\ console w1 = console w ++ [restore_log e].
Proof.
  intros Hreload Hraw Htruthy Hfail.
  pose proof (instantiate_recover key options w raw e Hreload Hraw Htruthy Hfail)
    as Hinst.
  set (w0 := snd (console_error "Unable to restore hash navigator state." e w))
    in Hinst.
  pose proof (heap_allocated (derived w options) w0) as Hn.
  change (next_ref w0) with (next_ref w) in Hn.
  destruct (initNavigator_rest key options w _ _ _ Hinst Hn)
    as (w1 & Hrun & Hheap & Hstored & _ & Hconsole).
  eexists _, w1, _. split; [exact Hrun|]. split; [exact Hheap|].
  split; [reflexivity|]. split; [reflexivity|]. split; [exact Hstored|].
  exact Hconsole.
Qed.

(** X12.  [initNavigator] writes to the console in that case only: when the
    console has changed, the page was reloaded over a non-empty stored text
    whose restoration failed, and the one entry added carries the exception. *)
Theorem initNavigator_console (key : string) (options : jsval) (w : World) :
  console (snd (initNavigator key options w)) <> console w ->
  exists raw e,
    page_reload w = true
    /\ sessionStorage w !! key = Some raw
    /\ truthy raw = true
    /\ restore_fails raw options e
    /\ console (snd (initNavigator key options w)) = console w ++ [restore_log e].
Proof.
  intros Hchanged.
  destruct (page_reload w) eqn:Hreload.
  - destruct (sessionStorage w !! key) as [raw|] eqn:Hraw.
    + destruct (truthy raw) eqn:Htruthy.
      * destruct (JSON_parse raw) as [v|e] eqn:Hparse.
        -- destruct (destructure v) as [[index history]|e] eqn:Hd.
           ++ destruct (nav_rejects history index options) as [e|] eqn:Hrej.
              ** assert (restore_fails raw options e) as Hfail.
                 { right. exists v. split; [exact Hparse|]. right. eauto. }
                 destruct (initNavigator_recovers key options w raw e
                             Hreload Hraw Htruthy Hfail)
                   as (nav & w1 & n & Hrun & _ & _ & _ & _ & Hconsole).
                 exists raw, e. rewrite Hrun. cbn [snd]. auto 6.
              ** exfalso. apply Hchanged.
                 assert (instantiate key options w
                         = (Ok (next_ref w), allocated (restored history index options) w))
                   as Hinst.
                 { unfold instantiate, BrowserNavigator_new. run.
                   rewrite Hreload, Hraw, Htruthy, Hparse. cbn [fst snd].
                   rewrite Hd. cbn [fst snd]. rewrite Hrej. reflexivity. }
                 destruct (initNavigator_rest key options w _ _ _ Hinst
                             (heap_allocated _ w))
                   as (w1 & Hrun & _ & _ & _ & Hconsole).
                 rewrite Hrun. exact Hconsole.
           ++ assert (restore_fails raw options e) as Hfail.
              { right. exists v. auto. }
              destruct (initNavigator_recovers key options w raw e
                          Hreload Hraw Htruthy Hfail)
                as (nav & w1 & n & Hrun & _ & _ & _ & _ & Hconsole).
              exists raw, e. rewrite Hrun. cbn [snd]. auto 6.
        -- assert (restore_fails raw options e) as Hfail by (left; exact Hparse).
           destruct (initNavigator_recovers key options w raw e
                       Hreload Hraw Htruthy Hfail)
             as (nav & w1 & n & Hrun & _ & _ & _ & _ & Hconsole).
           exists raw, e. rewrite Hrun. cbn [snd]. auto 6.
      * exfalso. apply Hchanged.
        assert (instantiate key options w
                = (Ok (next_ref w), allocated (derived w options) w)) as Hinst.
        { unfold instantiate, createBrowserNavigatorFromLocation. run.
          rewrite Hreload, Hraw, Htruthy. reflexivity. }
        destruct (initNavigator_rest key options w _ _ _ Hinst (heap_allocated _ w))
          as (w1 & Hrun & _ & _ & _ & Hconsole).
        rewrite Hrun. exact Hconsole.
    + exfalso. apply Hchanged.
      assert (instantiate key options w
              = (Ok (next_ref w), allocated (derived w options) w)) as Hinst.
      { unfold instantiate, createBrowserNavigatorFromLocation. run.
        rewrite Hreload, Hraw. reflexivity. }
      destruct (initNavigator_rest key options w _ _ _ Hinst (heap_allocated _ w))
        as (w1 & Hrun & _ & _ & _ & Hconsole).
      rewrite Hrun. exact Hconsole.
  - exfalso. apply Hchanged.
    pose proof (instantiate_fresh_start key options w Hreload) as Hinst.
    destruct (initNavigator_rest key options w _ _ _ Hinst (heap_allocated _ w))
      as (w1 & Hrun & _ & _ & _ & Hconsole).
    rewrite Hrun. exact Hconsole.
Qed.

(** X11.  What one session saves, the next one restores.  After
    [initNavigator] and any run of navigations, a page reload that finds the
    same text under the key returns a navigator with exactly the index and
    the history the first one had reached, provided the platform reads back
    the snapshot it has serialised and the constructor accepts it. *)
Theorem initNavigator_reload_round_trip (key : string) (options options' : jsval)
    (steps : list (jsval * jsval)) (w : World) :
  exists nav w1 w2 n2,
    initNavigator key options w = (Ok nav, w1)
    /\ navigations nav steps w1 = (Ok tt, w2)
    /\ heap w2 !! nav = Some n2
    /\ forall wr,
         page_reload wr = true ->
         sessionStorage wr !! key = sessionStorage w2 !! key ->
         truthy (JSON_stringify (snapshot n2)) = true ->
         JSON_parse (JSON_stringify (snapshot n2)) = Ok (snapshot n2) ->
         nav_rejects (nav_history n2) (nav_index n2) options' = None ->
         exists nav' wr1 n',
           initNavigator key options' wr = (Ok nav', wr1)
           /\ heap wr1 !! nav' = Some n'
           /\ nav_index n' = nav_index n2
           /\ nav_history n' = nav_history n2.
Proof.
  destruct (instantiate_returns key options w)
    as (nav & w0 & n0 & Hinst & Hn0 & Hnil & _).
  destruct (initNavigator_after key options w w0 nav n0 Hinst Hn0)
    as (w1 & Hrun & Hheap & Hstored & _).
  assert (saving key nav (listening key nav n0)) as Hsaving.
  { unfold saving, listening. cbn [nav_listeners]. rewrite Hnil. reflexivity. }
  destruct (navigations_save key nav steps w1 (listening key nav n0)
              Hheap Hsaving Hstored)
    as (w2 & n2 & Hsteps & Hn2 & _ & Hstored2 & _).
  exists nav, w1, w2, n2.
  split; [exact Hrun|]. split; [exact Hsteps|]. split; [exact Hn2|].
  intros wr Hreload Hsame Htruthy Hparse Haccept.
  rewrite Hstored2 in Hsame.
  pose proof (instantiate_restore key options' wr _
                [("index", nav_index n2); ("history", nav_history n2)]
                Hreload Hsame Htruthy Hparse Haccept) as Hinst'.
  destruct (initNavigator_after key options' wr _ _ _ Hinst' (heap_allocated _ wr))
    as (wr1 & Hrun' & Hheap' & _).
  eexists _, wr1, _. split; [exact Hrun'|]. split; [exact Hheap'|].
  split; reflexivity.
Qed.

End MoreNavigation.

Lemma initNavigator_fresh_start_witness :
  exists nav w1 n,
    @initNavigator SampleNav.platform "nav" JUndefined
      (SampleNav.fresh_world (<["nav" := SampleNav.stored_text]> ∅)) = (Ok nav, w1)
    /\ heap w1 !! nav = Some n
    /\ nav_index n = JNum 0
    /\ nav_history n = JArr [JStr "/start"].
Proof.
  destruct (@initNavigator_fresh_start SampleNav.platform "nav" JUndefined
              (SampleNav.fresh_world (<["nav" := SampleNav.stored_text]> ∅)) eq_refl)
    as (nav & w1 & n & Hrun & Hheap & Hindex & Hhistory & _).
  exists nav, w1, n. auto.
Defined.

Lemma initNavigator_recovers_witness :
  exists nav w1 n,
    @initNavigator SampleNav.platform "nav" JUndefined
      (SampleNav.world (<["nav" := "null"]> ∅)) = (Ok nav, w1)
    /\ heap w1 !! nav = Some n
    /\ nav_history n = JArr [JStr "/start"]
    /\ console w1
       = [restore_log (Exn "TypeError" "Cannot destructure property 'index'")].
Proof.
  destruct (@initNavigator_recovers SampleNav.platform "nav" JUndefined
              (SampleNav.world (<["nav" := "null"]> ∅)) "null"
              (Exn "TypeError" "Cannot destructure property 'index'")
              eq_refl (lookup_insert_eq _ _ _) eq_refl)
    as (nav & w1 & n & Hrun & Hheap & _ & Hhistory & _ & Hconsole).
  - right. exists JNull. split; [reflexivity|]. left. reflexivity.
  - exists nav, w1, n. auto.
Defined.

Lemma initNavigator_console_witness :
  exists raw e,
    sessionStorage (SampleNav.world (<["nav" := "{oops"]> ∅)) !! "nav" = Some raw
    /\ @restore_fails SampleNav.platform raw JUndefined e.
Proof.
  destruct (@initNavigator_console SampleNav.platform "nav" JUndefined
              (SampleNav.world (<["nav" := "{oops"]> ∅)))
    as (raw & e & _ & Hraw & _ & Hfail & _).
  - vm_compute. discriminate.
  - exists raw, e. auto.
Defined.

(** A session restored at index 1 of three entries and left there, then
    reloaded. *)
Example reload_round_trip_sample :
  let first := @initNavigator SampleNav.platform "nav" JUndefined
                 (SampleNav.world (<["nav" := SampleNav.stored_text]> ∅)) in
  let second := @initNavigator SampleNav.platform "nav" JUndefined
                  (SampleNav.world (sessionStorage (snd first))) in
  match fst second with
  | Ok nav =>
      (nav_index <$> heap (snd second) !! nav) = Some (JNum 1)
      /\ (nav_history <$> heap (snd second) !! nav) = Some SampleNav.abc
  | Throw _ => False
  end.
Proof. vm_compute. split; reflexivity. Qed.

End NavigationFacts.

(** ** Properties of the event emitter singleton *)

Module SingletonFacts.
Import Singleton.

Ltac run :=
  unfold mbind, Eff_bind, mret, Eff_ret, count, get_cached, set_cached, cleanup;
  cbn [fst snd].

(** The reset leaves the emitters as they are. *)
Lemma off_emitters (emitter : nat) (event : string) (listener : ListenerId)
    (w : World) :
  emitters (snd (off emitter event listener w))
  = emitters (snd (bound_off emitter event listener w)).
Proof.
  unfold off, resetMiniAppsEventEmitter, bound_off, update. run.
  match goal with |- context [if ?b then _ else _] => destruct b end;
    [|reflexivity].
  cbn [cached]. destruct (cached w); reflexivity.
Qed.

Lemma off_run (emitter : nat) (event : string) (listener : ListenerId)
    (w : World) :
  cached w = Some emitter ->
  off emitter event listener w
  = (Ok tt,
     let w1 := snd (bound_off emitter event listener w) in
     if negb (count_of w emitter =? 0)%nat && (count_of w1 emitter =? 0)%nat
     then {| emitters := emitters w1; next_emitter := next_emitter w;
             cached := None; cleanups := cleanups w ++ [emitter] |}
     else w1).
Proof.
  intros Hc. unfold off, resetMiniAppsEventEmitter, bound_off, update. run.
  match goal with |- context [if ?b then _ else _] => destruct b end;
    [|reflexivity].
  cbn [cached]. rewrite Hc. reflexivity.
Qed.

(** C5.  A call of [off] on the emitter that the singleton holds resets the
    singleton, invoking the cleanup of that emitter once, exactly when the
    call takes the emitter's listener count from nonzero to zero; otherwise
    (the count stays nonzero, or was zero already) no cleanup is invoked and
    the singleton keeps its emitter.  After a reset nothing is cached, and the
    next access creates an emitter without listeners and caches it. *)
Theorem off_resets_on_last_listener (w : World) (emitter : nat)
    (event : string) (listener : ListenerId) :
  cached w = Some emitter ->
  let w' := snd (off emitter event listener w) in
  let before := count_of w emitter in
  let after := count_of w' emitter in
  fst (off emitter event listener w) = Ok tt
  /\ (before <> 0 /\ after = 0 ->
      cleanups w' = cleanups w ++ [emitter]
      /\ cached w' = None
      /\ let w'' := snd (miniAppsEventEmitter w') in
         fst (miniAppsEventEmitter w') = Ok (next_emitter w')
         /\ cached w'' = Some (next_emitter w')
         /\ count_of w'' (next_emitter w') = 0
         /\ cleanups w'' = cleanups w')
  /\ (~ (before <> 0 /\ after = 0) ->
      cleanups w' = cleanups w
      /\ cached w' = Some emitter
      /\ miniAppsEventEmitter w' = (Ok emitter, w')).
Proof.
  intros Hc w' before after.
  assert (after = count_of (snd (bound_off emitter event listener w)) emitter)
    as Hafter.
  { unfold after, w', count_of. now rewrite off_emitters. }
  subst w'. rewrite Hafter. clear Hafter after. subst before.
  rewrite (off_run emitter event listener w Hc). cbn [fst snd].
  set (w1 := snd (bound_off emitter event listener w)).
  split; [reflexivity|].
  destruct (negb (count_of w emitter =? 0)%nat && (count_of w1 emitter =? 0)%nat)
    eqn:Htest.
  - split.
    + intros _. split; [reflexivity|]. split; [reflexivity|].
      unfold miniAppsEventEmitter, get, create, createMiniAppsEventEmitter. run.
      cbn. split; [reflexivity|]. split; [reflexivity|]. split; [|reflexivity].
      unfold count_of. cbn. now rewrite lookup_insert_eq.
    + intros Hnot. exfalso. apply Hnot.
      apply andb_true_iff in Htest as [Hb Ha].
      apply negb_true_iff, Nat.eqb_neq in Hb. apply Nat.eqb_eq in Ha. auto.
  - split.
    + intros [Hb Ha]. exfalso.
      apply Nat.eqb_neq in Hb. apply Nat.eqb_eq in Ha.
      rewrite Hb, Ha in Htest. discriminate.
    + intros _. subst w1.
      cbn [bound_off update snd cached cleanups].
      split; [reflexivity|]. split; [exact Hc|].
      unfold miniAppsEventEmitter, get. run. cbn [cached]. rewrite Hc. reflexivity.
Qed.

(** Removing one of two listeners resets nothing; removing the last one
    invokes the cleanup and empties the cache. *)
Lemma off_resets_on_last_listener_witness :
  (let w' := snd (off 0 "viewport_changed" 1 SampleSingleton.two_listeners) in
   cleanups w' = [] /\ cached w' = Some 0)
  /\ (let w' := snd (off 0 "theme_changed" 2
                       (snd (off 0 "viewport_changed" 1 SampleSingleton.two_listeners))) in
      cleanups w' = [0] /\ cached w' = None).
Proof.
  split.
  - destruct (off_resets_on_last_listener SampleSingleton.two_listeners 0 "viewport_changed" 1
                eq_refl) as (_ & _ & Hkeep).
    destruct Hkeep as (Hcl & Hca & _).
    + vm_compute. intros [_ Hzero]. discriminate Hzero.
    + split; [exact Hcl | exact Hca].
  - destruct (off_resets_on_last_listener
                (snd (off 0 "viewport_changed" 1 SampleSingleton.two_listeners))
                0 "theme_changed" 2 eq_refl) as (_ & Hreset & _).
    destruct Hreset as (Hcl & Hca & _).
    + vm_compute. split; [discriminate | reflexivity].
    + split; [exact Hcl | exact Hca].
Defined.

(** After the run [kept_emitter_run] the singleton holds the second emitter,
    which has one listener.  The call of [off] that empties the first emitter
    resets the singleton: the cleanup of the second emitter is invoked and the
    cache emptied while the listener count of that emitter stays 1. *)
Lemma off_resets_singleton_with_listeners :
  exists w,
    SampleSingleton.kept_emitter_run SampleSingleton.nothing_cached = (Ok (0, 1), w)
    /\ cached w = Some 1
    /\ count_of w 1 = 1
    /\ cleanups w = [0]
    /\ let w' := snd (off 0 "viewport_changed" 1 w) in
       cleanups w' = [0; 1]
       /\ cached w' = None
       /\ count_of w' 1 = 1.
Proof.
  exists (snd (SampleSingleton.kept_emitter_run SampleSingleton.nothing_cached)).
  vm_compute. repeat split.
Qed.

(** *** Listeners that are not subscribed, emitters kept after a reset *)

Lemma same_true (event : string) (listener : ListenerId)
    (s : string * ListenerId) :
  same event listener s = true <-> s = (event, listener).
Proof.
  destruct s as [ev l]. unfold same. cbn [fst snd].
  rewrite andb_true_iff, String.eqb_eq, Nat.eqb_eq. split.
  - intros [-> ->]. reflexivity.
  - intros [= -> ->]. auto.
Qed.

Lemma remove_first_absent (event : string) (listener : ListenerId)
    (subs : list (string * ListenerId)) :
  ~ In (event, listener) subs -> remove_first event listener subs = subs.
Proof.
  induction subs as [|s subs IH]; intros Hnot; [reflexivity|].
  cbn [remove_first]. destruct (same event listener s) eqn:Hs.
  - apply same_true in Hs. subst s. exfalso. apply Hnot. now left.
  - f_equal. apply IH. intros Hin. apply Hnot. now right.
Qed.

Lemma remove_first_head (event : string) (listener : ListenerId)
    (subs : list (string * ListenerId)) :
  remove_first event listener ((event, listener) :: subs) = subs.
Proof.
  cbn [remove_first].
  now rewrite (proj2 (same_true event listener (event, listener)) eq_refl).
Qed.

(** X13.  [off] for a listener that is not subscribed on the emitter, or on
    an emitter that does not exist, changes nothing at all: no listener is
    removed and the singleton is not reset, also when the emitter has no
    listener left. *)
Theorem off_unregistered (w : World) (emitter : nat) (event : string)
    (listener : ListenerId) :
  (forall e, emitters w !! emitter = Some e ->
     ~ In (event, listener) (subscriptions e)) ->
  off emitter event listener w = (Ok tt, w).
Proof.
  intros Habsent.
  assert (snd (bound_off emitter event listener w) = w) as Hsame.
  { unfold bound_off, update. cbn [snd]. rewrite alter_id.
    - destruct w; reflexivity.
    - intros e He. rewrite (remove_first_absent _ _ _ (Habsent e He)).
      destruct e; reflexivity. }
  unfold off. run.
  change (bound_off emitter event listener w)
    with (Ok tt, snd (bound_off emitter event listener w)).
  rewrite Hsame. cbn [fst snd].
  destruct (count_of w emitter =? 0)%nat; reflexivity.
Qed.

(** X14.  The reset that [off] triggers is the singleton's, whatever emitter
    the call is made on.  When [off] empties an emitter that the singleton no
    longer holds, the cleanup of the emitter currently cached is invoked and
    the cache is emptied, although that emitter keeps its listeners. *)
Theorem off_on_replaced_emitter (w : World) (current emitter : nat)
    (event : string) (listener : ListenerId) :
  cached w = Some current ->
  emitter <> current ->
  count_of w emitter <> 0 ->
  count_of (snd (bound_off emitter event listener w)) emitter = 0 ->
  let w' := snd (off emitter event listener w) in
  fst (off emitter event listener w) = Ok tt
  /\ cleanups w' = cleanups w ++ [current]
  /\ cached w' = None
  /\ count_of w' current = count_of w current.
Proof.
  intros Hc Hne Hbefore Hafter.
  apply Nat.eqb_neq in Hbefore. apply Nat.eqb_eq in Hafter.
  unfold off, resetMiniAppsEventEmitter. run.
  change (bound_off emitter event listener w)
    with (Ok tt, snd (bound_off emitter event listener w)).
  cbn [fst snd]. rewrite Hbefore, Hafter. cbn [negb andb].
  cbn [bound_off update snd cached]. rewrite Hc. cbn.
  repeat split. unfold count_of. cbn. now rewrite lookup_alter_ne.
Qed.

(** *** A consumer's subscriptions *)

Lemma miniAppsEventEmitter_created (w : World) :
  cached w = None ->
  exists w', miniAppsEventEmitter w = (Ok (next_emitter w), w')
    /\ emitters w' !! next_emitter w = Some {| subscriptions := [] |}
    /\ cached w' = Some (next_emitter w)
    /\ cleanups w' = cleanups w
    /\ next_emitter w' = S (next_emitter w).
Proof.
  intros Hc.
  unfold miniAppsEventEmitter, get, create, createMiniAppsEventEmitter. run.
  rewrite Hc. eexists. split; [reflexivity|]. cbn.
  rewrite lookup_insert_eq. auto.
Qed.

Lemma ons_run (emitter : nat) (subs : list (string * ListenerId)) :
  forall (w : World) (subs0 : list (string * ListenerId)),
  emitters w !! emitter = Some {| subscriptions := subs0 |} ->
  exists w', ons emitter subs w = (Ok tt, w')
    /\ emitters w' !! emitter = Some {| subscriptions := subs0 ++ subs |}
    /\ cached w' = cached w
    /\ cleanups w' = cleanups w
    /\ next_emitter w' = next_emitter w.
Proof.
  induction subs as [|[event listener] subs IH]; intros w subs0 He.
  - exists w. cbn. rewrite app_nil_r. auto.
  - set (w1 := snd (on emitter event listener w)).
    assert (emitters w1 !! emitter
            = Some {| subscriptions := subs0 ++ [(event, listener)] |}) as He1.
    { cbn. rewrite lookup_alter_eq, He. reflexivity. }
    destruct (IH w1 _ He1) as (w' & Hrun & He' & Hc & Hcl & Hn).
    exists w'. split.
    { cbn [ons]. unfold on, update. run. exact Hrun. }
    rewrite <- app_assoc in He'. auto.
Qed.

Lemma offs_run (emitter : nat) (subs : list (string * ListenerId)) :
  forall w : World,
  subs <> [] ->
  cached w = Some emitter ->
  emitters w !! emitter = Some {| subscriptions := subs |} ->
  exists w', offs emitter subs w = (Ok tt, w')
    /\ cached w' = None
    /\ cleanups w' = cleanups w ++ [emitter]
    /\ count_of w' emitter = 0
    /\ next_emitter w' = next_emitter w.
Proof.
  induction subs as [|[event listener] subs IH]; intros w Hne Hc He; [congruence|].
  cbn [offs]. run. rewrite (off_run emitter event listener w Hc). cbn [fst snd].
  assert (count_of w emitter = S (length subs)) as Hcount
    by (unfold count_of; now rewrite He).
  assert (emitters (snd (bound_off emitter event listener w)) !! emitter
          = Some {| subscriptions := subs |}) as He1.
  { cbn [bound_off update snd emitters]. rewrite lookup_alter_eq, He.
    cbn [fmap option_fmap option_map subscriptions].
    now rewrite remove_first_head. }
  assert (count_of (snd (bound_off emitter event listener w)) emitter = length subs)
    as Hcount1 by (unfold count_of; now rewrite He1).
  rewrite Hcount, Hcount1. cbn [Nat.eqb negb andb].
  destruct subs as [|s subs].
  - cbn [length Nat.eqb]. eexists. split; [reflexivity|].
    cbn [cached cleanups next_emitter bound_off update snd].
    split; [reflexivity|]. split; [reflexivity|]. split; [|reflexivity].
    exact Hcount1.
  - cbn [length Nat.eqb].
    destruct (IH (snd (bound_off emitter event listener w))) as
      (w' & Hrun & Hc' & Hcl' & Hcount' & Hn'); [discriminate | exact Hc | exact He1 |].
    exists w'. split; [exact Hrun|]. auto.
Qed.

Lemma offs_partial (emitter : nat) (removed : list (string * ListenerId)) :
  forall (w : World) (kept : list (string * ListenerId)),
  kept <> [] ->
  cached w = Some emitter ->
  emitters w !! emitter = Some {| subscriptions := removed ++ kept |} ->
  exists w', offs emitter removed w = (Ok tt, w')
    /\ cached w' = Some emitter
    /\ cleanups w' = cleanups w
    /\ emitters w' !! emitter = Some {| subscriptions := kept |}.
Proof.
  induction removed as [|[event listener] removed IH]; intros w kept Hne Hc He.
  - exists w. auto.
  - cbn [offs]. run. rewrite (off_run emitter event listener w Hc). cbn [fst snd].
    assert (count_of w emitter = S (length (removed ++ kept))) as Hcount
      by (unfold count_of; rewrite He; reflexivity).
    assert (emitters (snd (bound_off emitter event listener w)) !! emitter
            = Some {| subscriptions := removed ++ kept |}) as He1.
    { cbn [bound_off update snd emitters]. rewrite lookup_alter_eq, He.
      cbn [fmap option_fmap option_map subscriptions].
      cbn [app]. now rewrite remove_first_head. }
    assert (count_of (snd (bound_off emitter event listener w)) emitter
            = length (removed ++ kept))
      as Hcount1 by (unfold count_of; now rewrite He1).
    rewrite Hcount, Hcount1. cbn [Nat.eqb negb andb].
    assert (length (removed ++ kept) <> 0) as Hlen.
    { rewrite length_app. destruct kept; [congruence | cbn; lia]. }
    apply Nat.eqb_neq in Hlen. rewrite Hlen.
    destruct (IH (snd (bound_off emitter event listener w)) kept Hne Hc He1)
      as (w' & Hrun & Hc' & Hcl' & He').
    exists w'. auto.
Qed.

(** X15.  From a state with nothing cached, a consumer that takes the
    emitter, subscribes some listeners and later unsubscribes them in the
    same order causes exactly one cleanup, that of the emitter it used, at
    the removal of the last listener: as long as some of its listeners are
    kept, no cleanup has been invoked and the singleton still holds the
    emitter; once all are removed the cleanup has been invoked once, the
    cache is empty and the next access creates another emitter. *)
Theorem subscribe_then_unsubscribe (w : World)
    (subs : list (string * ListenerId)) :
  cached w = None ->
  subs <> [] ->
  exists e w1 w2,
    subscribe_all subs w = (Ok e, w1)
    /\ cached w1 = Some e
    /\ cleanups w1 = cleanups w
    /\ count_of w1 e = length subs
    /\ (forall removed kept, subs = removed ++ kept -> kept <> [] ->
          exists wk, offs e removed w1 = (Ok tt, wk)
            /\ cleanups wk = cleanups w
            /\ cached wk = Some e
            /\ count_of wk e = length kept)
    /\ offs e subs w1 = (Ok tt, w2)
    /\ cleanups w2 = cleanups w ++ [e]
    /\ cached w2 = None
    /\ exists e' w3, miniAppsEventEmitter w2 = (Ok e', w3) /\ e' = S e.
Proof.
  intros Hc Hne.
  destruct (miniAppsEventEmitter_created w Hc) as (w0 & Hget & He0 & Hc0 & Hcl0 & Hn0).
  destruct (ons_run (next_emitter w) subs w0 [] He0)
    as (w1 & Hons & He1 & Hc1 & Hcl1 & Hn1).
  rewrite Hc0 in Hc1.
  destruct (offs_run (next_emitter w) subs w1 Hne Hc1 He1)
    as (w2 & Hoffs & Hc2 & Hcl2 & Hcount2 & Hn2).
  exists (next_emitter w), w1, w2.
  split.
  { unfold subscribe_all. run. rewrite Hget. cbn [fst snd]. now rewrite Hons. }
  split; [exact Hc1|]. split; [congruence|].
  split; [unfold count_of; now rewrite He1|].
  split.
  { intros removed kept Hsplit Hkept. cbn [app] in He1. rewrite Hsplit in He1.
    destruct (offs_partial (next_emitter w) removed w1 kept Hkept Hc1 He1)
      as (wk & Hrun & Hck & Hclk & Hek).
    exists wk. split; [exact Hrun|]. split; [congruence|]. split; [exact Hck|].
    unfold count_of. now rewrite Hek. }
  split; [exact Hoffs|]. split; [congruence|]. split; [exact Hc2|].
  destruct (miniAppsEventEmitter_created w2 Hc2) as (w3 & Hget3 & _).
  exists (next_emitter w2), w3. split; [exact Hget3|]. congruence.
Qed.

Lemma off_unregistered_witness :
  off 0 "main_button_pressed" 9 SampleSingleton.two_listeners
  = (Ok tt, SampleSingleton.two_listeners).
Proof.
  apply off_unregistered. intros e He.
  cbn in He. rewrite lookup_insert_eq in He. injection He as <-.
  cbn. intros [Hs | [Hs | []]]; discriminate Hs.
Defined.

Lemma off_on_replaced_emitter_witness :
  let w' := snd (off 0 "viewport_changed" 1 SampleSingleton.replaced) in
  cleanups w' = [0; 1] /\ cached w' = None /\ count_of w' 1 = 1.
Proof.
  destruct (off_on_replaced_emitter SampleSingleton.replaced 1 0
              "viewport_changed" 1 eq_refl)
    as (_ & Hcl & Hc & Hcount).
  - discriminate.
  - vm_compute. discriminate.
  - vm_compute. reflexivity.
  - split; [exact Hcl|]. split; [exact Hc|]. exact Hcount.
Defined.

Lemma subscribe_then_unsubscribe_witness :
  exists e w1 w2,
    subscribe_all [("viewport_changed", 1); ("theme_changed", 2)]
      SampleSingleton.nothing_cached = (Ok e, w1)
    /\ (exists wk, offs e [("viewport_changed", 1)] w1 = (Ok tt, wk)
          /\ cleanups wk = [] /\ cached wk = Some e /\ count_of wk e = 1)
    /\ offs e [("viewport_changed", 1); ("theme_changed", 2)] w1 = (Ok tt, w2)
    /\ cleanups w2 = [e]
    /\ cached w2 = None.
Proof.
  destruct (subscribe_then_unsubscribe SampleSingleton.nothing_cached
              [("viewport_changed", 1); ("theme_changed", 2)] eq_refl)
    as (e & w1 & w2 & Hsub & _ & _ & _ & Hpartial & Hoffs & Hcl & Hc & _).
  - discriminate.
  - exists e, w1, w2. split; [exact Hsub|]. split; [|auto].
    apply (Hpartial [("viewport_changed", 1)] [("theme_changed", 2)] eq_refl).
    discriminate.
Defined.

End SingletonFacts.

(** ** Properties of the MiniApp initialisation *)

Module InitMiniAppFacts.
Import InitMiniApp.

Lemma props_botInline (r : gmap string jsval) (s : jsobj) (b : bool) :
  props r s b !! "botInline" = Some (JBool b).
Proof. apply lookup_insert_eq. Qed.

Lemma props_other (r : gmap string jsval) (s : jsobj) (b : bool) (k : string) :
  k <> "botInline" ->
  props r s b !! k
  = match (list_to_map s : gmap string jsval) !! k with
    | Some v => Some v
    | None => r !! k
    end.
Proof.
  intros Hk. unfold props. rewrite lookup_insert_ne by congruence.
  rewrite lookup_union.
  destruct (list_to_map s !! k) as [v|]; destruct (r !! k); reflexivity.
Qed.

(** X16.  With a [state] in its argument the factory does not read
    [themeParams], so it succeeds also when they are [undefined] or [null];
    the MiniApp then receives every property of [state], the properties of
    the rest that [state] does not have, and a boolean [botInline] taken from
    the argument ([false] when absent), never from [state] or the rest. *)
Theorem initMiniApp_state_precedence (o : Options) (s : jsobj) :
  state o = Some s ->
  exists p, initMiniApp o = Ok p
    /\ p !! "botInline"
       = Some (JBool (match botInline o with Some b => b | None => false end))
    /\ forall k, k <> "botInline" ->
         p !! k = match (list_to_map s : gmap string jsval) !! k with
                  | Some v => Some v
                  | None => rest o !! k
                  end.
Proof.
  intros Hs. unfold initMiniApp. rewrite Hs. eexists. split; [reflexivity|].
  split; [apply props_botInline|]. intros k Hk. now apply props_other.
Qed.

(** X17.  Without a [state] the factory fails with a [TypeError] exactly when
    [themeParams] is [undefined] or [null].  Otherwise the MiniApp receives as
    [bgColor] the theme's [bgColor], or [#ffffff] when that is missing or
    empty, and as [headerColor] the theme's [headerBgColor], or [#000000]
    when that is missing or empty, whatever the rest holds under these
    names, and [botInline] as before. *)
Theorem initMiniApp_defaults (o : Options) :
  state o = None ->
  ((themeParams o = JUndefined \/ themeParams o = JNull) ->
     exists e, initMiniApp o = Throw e /\ exn_name e = "TypeError")
  /\ (themeParams o <> JUndefined -> themeParams o <> JNull ->
      exists p, initMiniApp o = Ok p
        /\ p !! "bgColor"
           = Some (if truthy (prop (themeParams o) "bgColor")
                   then prop (themeParams o) "bgColor" else JStr "#ffffff")
        /\ p !! "headerColor"
           = Some (if truthy (prop (themeParams o) "headerBgColor")
                   then prop (themeParams o) "headerBgColor" else JStr "#000000")
        /\ p !! "botInline"
           = Some (JBool (match botInline o with Some b => b | None => false end))
        /\ forall k, k <> "botInline" -> k <> "bgColor" -> k <> "headerColor" ->
             p !! k = rest o !! k).
Proof.
  intros Hs. unfold initMiniApp. rewrite Hs. split.
  - intros [-> | ->]; eexists; split; reflexivity.
  - intros Hu Hn.
    assert (default_state (themeParams o)
            = Ok [("bgColor", or_else (prop (themeParams o) "bgColor") (JStr "#ffffff"));
                  ("headerColor",
                   or_else (prop (themeParams o) "headerBgColor") (JStr "#000000"))])
      as ->.
    { unfold default_state, member. destruct (themeParams o); congruence. }
    eexists. split; [reflexivity|].
    split; [rewrite props_other by discriminate; reflexivity|].
    split; [rewrite props_other by discriminate; reflexivity|].
    split; [apply props_botInline|].
    intros k Hk Hbg Hheader. rewrite props_other by exact Hk.
    cbn [list_to_map foldr]. unfold curry. cbn [fst snd].
    rewrite !lookup_insert_ne by congruence. now rewrite lookup_empty.
Qed.

Lemma initMiniApp_state_precedence_witness :
  exists p, initMiniApp SampleInit.relaunch = Ok p
    /\ p !! "botInline" = Some (JBool true)
    /\ p !! "bgColor" = Some (JStr "#000000")
    /\ p !! "version" = Some (JStr "6.10").
Proof.
  destruct (initMiniApp_state_precedence SampleInit.relaunch
              [("bgColor", JStr "#000000"); ("botInline", JBool false)] eq_refl)
    as (p & Hrun & Hinline & Hother).
  exists p. split; [exact Hrun|]. split; [exact Hinline|]. split.
  - rewrite (Hother "bgColor") by discriminate. reflexivity.
  - rewrite (Hother "version") by discriminate. reflexivity.
Defined.

Lemma initMiniApp_defaults_witness :
  exists p, initMiniApp SampleInit.first_launch = Ok p
    /\ p !! "bgColor" = Some (JStr "#17212b")
    /\ p !! "headerColor" = Some (JStr "#000000")
    /\ p !! "botInline" = Some (JBool false).
Proof.
  destruct (proj2 (initMiniApp_defaults SampleInit.first_launch eq_refl))
    as (p & Hrun & Hbg & Hheader & Hinline & _); [discriminate | discriminate |].
  exists p. auto.
Defined.

End InitMiniAppFacts.
